(** * G1 concurrent marking: the declarations of g1ConcurrentMark.hpp

    A shallow embedding of the inline code of
    [src/hotspot/share/gc/g1/g1ConcurrentMark.hpp]: the tagged task-queue
    entry, the chunked mark stack with its bucketed chunk allocator, the
    marking coordinator's inline accessors and the marking task's clock
    limits.  Pointers and [size_t] values are 64-bit words held in [Z], with
    the wrap-around of the C++ arithmetic written out. *)

From Stdlib Require Import ZArith Lia Bool List Sorted.
From stdpp Require Import base option list gmap vector.

Local Open Scope Z_scope.

(** ** The machine model (LP64) *)

(** Modelled from the spec: [BitsPerWord] and [HeapWordSize] come from
    globalDefinitions.hpp, which is not part of the sources at hand; the spec
    speaks of a "1 machine word" entry and of 8-byte granules, the LP64
    values. *)
Definition BitsPerWord : Z := 64.
Definition HeapWordSize : Z := 8.

(** [size_t], [uintptr_t] and [unsigned long long] results are reduced
    modulo [2^64], [unsigned int] results modulo [2^32]. *)
Definition word_modulus : Z := 2 ^ BitsPerWord.
Definition wrap_word (x : Z) : Z := x mod word_modulus.
Definition wrap_uint (x : Z) : Z := x mod 2 ^ 32.

(** [~x] on a [uintptr_t]. *)
Definition word_not (x : Z) : Z := Z.lxor x (Z.ones BitsPerWord).

Definition is_word (x : Z) : Prop := 0 <= x < word_modulus.

(** ** G1TaskQueueEntry: an oop or a tagged array-slice address *)

Module G1TaskQueueEntry.

Record t : Set := mk { _holder : Z }.

Definition ArraySliceBit : Z := 1.

(** [G1TaskQueueEntry()]: the empty slot. *)
Definition empty : t := mk 0.

Definition is_array_slice (e : t) : bool :=
  negb (Z.land (_holder e) ArraySliceBit =? 0).
Definition is_oop (e : t) : bool := negb (is_array_slice e).
Definition is_null (e : t) : bool := _holder e =? 0.

(** The private constructor from an oop asserts that the oop is not null;
    a failed assertion is [None]. *)
Definition from_oop (obj : Z) : option t :=
  if obj =? 0 then None else Some (mk obj).

Definition from_slice (what : Z) : t := mk (Z.lor what ArraySliceBit).

(** [obj()] asserts [!is_array_slice()], [slice()] asserts
    [is_array_slice()]. *)
Definition obj (e : t) : option Z :=
  if is_array_slice e then None else Some (_holder e).

Definition slice (e : t) : option Z :=
  if is_array_slice e
  then Some (Z.land (_holder e) (word_not ArraySliceBit))
  else None.

End G1TaskQueueEntry.

(** ** G1CMMarkStack: the chunked overflow mark stack *)

Module G1CMMarkStack.

(** Number of task-queue entries that fit in a single chunk: one reference
    of the 1024 is taken by the next pointer. *)
Definition EntriesPerChunk : Z := 1024 - 1.

(** [struct TaskQueueEntryChunk]: the next pointer ([None] is null) and the
    array [data[EntriesPerChunk]]. *)
#[warnings="-register-all"]
Inductive TaskQueueEntryChunk :=
  Chunk { next : option TaskQueueEntryChunk;
          data : vec G1TaskQueueEntry.t (Z.to_nat EntriesPerChunk) }.

(** The buffer that is pushed or popped at once: [EntriesPerChunk]
    entries, null-terminated when fewer are in use. *)
Definition Buffer : Type := vec G1TaskQueueEntry.t (Z.to_nat EntriesPerChunk).

(** The size of a chunk in references: the header and the entries. *)
Definition chunk_words (c : TaskQueueEntryChunk) : Z :=
  1 + Z.of_nat (length (vec_to_list (data c))).

(** *** ChunkAllocator: the bucketed growable array *)

(** [_buckets] is kept as the list of its slots, [true] for a slot whose
    bucket has been allocated (a non-null pointer). *)
Record ChunkAllocator := mkChunkAllocator {
  _min_capacity : Z;
  _max_capacity : Z;
  _capacity : Z;
  _num_buckets : Z;
  _should_grow : bool;
  _buckets : list bool;
  _size : Z
}.

Fixpoint leading_zeros_below (n : nat) (x : Z) : Z :=
  match n with
  | O => 0
  | S n' => if Z.testbit x (Z.of_nat n') then 0
            else 1 + leading_zeros_below n' x
  end.

(** Modelled from the spec: [count_leading_zeros] is declared in
    utilities/count_leading_zeros.hpp, which is not among the sources at
    hand.  The spec reads the highest bit as [floor(log2(idx))], so this
    counts the zero bits above the highest set bit of a 64-bit word.  The
    argument is expected to be non-zero; [0] gives [64] here. *)
Definition count_leading_zeros (x : Z) : Z :=
  leading_zeros_below (Z.to_nat BitsPerWord) x.

Definition find_highest_bit (mask : Z) : Z :=
  Z.lxor (count_leading_zeros mask) (wrap_uint (BitsPerWord - 1)).

(** The shifts [1ULL << n] are defined for [n < 64] only; beyond that the
    wrapped value below is 0. *)
Definition bucket_size (a : ChunkAllocator) (bucket : Z) : Z :=
  if bucket =? 0 then _min_capacity a
  else wrap_word (_min_capacity a * wrap_word (Z.shiftl 1 (bucket - 1))).

Definition get_bucket (a : ChunkAllocator) (array_idx : Z) : Z :=
  if array_idx <? _min_capacity a then 0
  else wrap_uint (find_highest_bit array_idx
                  - find_highest_bit (_min_capacity a) + 1).

Definition get_bucket_index (a : ChunkAllocator) (array_idx : Z) : Z :=
  if array_idx <? _min_capacity a then array_idx
  else wrap_word (array_idx - wrap_word (Z.shiftl 1 (find_highest_bit array_idx))).



Definition capacity (a : ChunkAllocator) : Z := _capacity a.

(** The out-of-line members of the allocator.  Whether the operating
    system hands out the memory of a bucket is the argument [mem_ok]. *)

Definition with_capacity (a : ChunkAllocator) (cap : Z) (bs : list bool)
  : ChunkAllocator :=
  {| _min_capacity := _min_capacity a; _max_capacity := _max_capacity a;
     _capacity := cap; _num_buckets := _num_buckets a;
     _should_grow := _should_grow a; _buckets := bs; _size := _size a |}.

Definition with_size (a : ChunkAllocator) (sz : Z) : ChunkAllocator :=
  {| _min_capacity := _min_capacity a; _max_capacity := _max_capacity a;
     _capacity := _capacity a; _num_buckets := _num_buckets a;
     _should_grow := _should_grow a; _buckets := _buckets a; _size := sz |}.

(** Slots [0..upto] of the bucket array marked as allocated. *)
Definition allocate_buckets (bs : list bool) (upto : Z) : list bool :=
  imap (fun i b => b || (Z.of_nat i <=? upto)) bs.

(** Modelled from the spec: [reserve] is defined in g1ConcurrentMark.cpp,
    which is not among the sources at hand.  Growth adds the buckets that
    cover the indices below the new capacity and never moves a chunk; it
    fails, changing nothing, when the memory is refused. *)
Definition reserve (mem_ok : bool) (a : ChunkAllocator) (new_capacity : Z)
  : bool * ChunkAllocator :=
  if mem_ok
  then (true, with_capacity a (Z.max (_capacity a) new_capacity)
                (allocate_buckets (_buckets a) (get_bucket a (new_capacity - 1))))
  else (false, a).

(** Modelled from the spec: [try_expand_to] and [try_expand] are defined in
    g1ConcurrentMark.cpp.  Expansion doubles the capacity, up to the
    maximum capacity, and fails at the maximum. *)
Definition try_expand_to (mem_ok : bool) (a : ChunkAllocator)
  (desired_capacity : Z) : bool * ChunkAllocator :=
  if _capacity a =? _max_capacity a then (false, a)
  else reserve mem_ok a (Z.min desired_capacity (_max_capacity a)).

Definition try_expand (mem_ok : bool) (a : ChunkAllocator)
  : bool * ChunkAllocator :=
  try_expand_to mem_ok a (wrap_word (_capacity a * 2)).


(** Modelled from the spec: [allocate_new_chunk] is defined in
    g1ConcurrentMark.cpp.  It hands out the next logical index of the
    bucketed array; when that index lies beyond the reserved capacity the
    allocator grows if [_should_grow] is set and fails otherwise, so that
    the caller restarts the marking.  The result is the logical index of
    the new chunk. *)
Definition allocate_new_chunk (mem_ok : bool) (a : ChunkAllocator)
  : option Z * ChunkAllocator :=
  if _max_capacity a <=? _size a then (None, a)
  else
    let cur_idx := _size a in
    let a1 := with_size a (wrap_word (cur_idx + 1)) in
    if cur_idx <? _capacity a1 then (Some cur_idx, a1)
    else if _should_grow a1 then
      match try_expand mem_ok a1 with
      | (true, a2) => (Some cur_idx, a2)
      | (false, a2) => (None, a2)
      end
    else (None, a1).






(** *** The mark stack proper *)

Record t := mkMarkStack {
  _chunk_allocator : ChunkAllocator;
  _free_list : option TaskQueueEntryChunk;
  _chunk_list : option TaskQueueEntryChunk;
  _chunks_in_chunk_list : Z
}.

Definition is_empty (s : t) : bool :=
  match _chunk_list s with None => true | Some _ => false end.

Definition stack_capacity (s : t) : Z := capacity (_chunk_allocator s).


Definition size (s : t) : Z :=
  wrap_word (_chunks_in_chunk_list s * EntriesPerChunk).

(** Modelled from the spec: [par_push_chunk] is defined in
    g1ConcurrentMark.cpp.  It acquires a chunk (popped from the free list,
    else the next chunk of the bucketed allocator), copies the buffer into
    its data and pushes it onto the chunk list; it fails when no chunk can
    be had. *)
Definition par_push_chunk (mem_ok : bool) (s : t) (buffer : Buffer)
  : bool * t :=
  let push a free :=
    {| _chunk_allocator := a; _free_list := free;
       _chunk_list := Some (Chunk (_chunk_list s) buffer);
       _chunks_in_chunk_list := wrap_word (_chunks_in_chunk_list s + 1) |} in
  match _free_list s with
  | Some c => (true, push (_chunk_allocator s) (next c))
  | None =>
      match allocate_new_chunk mem_ok (_chunk_allocator s) with
      | (Some _, a) => (true, push a None)
      | (None, a) =>
          (false, {| _chunk_allocator := a; _free_list := None;
                     _chunk_list := _chunk_list s;
                     _chunks_in_chunk_list := _chunks_in_chunk_list s |})
      end
  end.

End G1CMMarkStack.

(** ** The heap layout and the mark bitmap, as the coordinator sees them *)

(** Modelled from the spec: [MemRegion] (memory/memRegion.hpp) is not among
    the sources at hand; the heap covers the addresses from its start up
    to, but not including, its end. *)
Record MemRegion := mkMemRegion { mr_start : Z; mr_end : Z }.

(** Modelled from the spec: the heap layout that [G1CollectedHeap] and
    [G1HeapRegion] provide: fixed-size regions from the heap base on, with
    the region of an address found by a division. *)
Record G1CollectedHeap := mkHeap { heap_base : Z; GrainBytes : Z }.

Definition addr_to_region (h : G1CollectedHeap) (addr : Z) : option nat :=
  if addr <? heap_base h then None
  else Some (Z.to_nat ((addr - heap_base h) / GrainBytes h)).

Definition region_bottom (h : G1CollectedHeap) (region : nat) : Z :=
  heap_base h + Z.of_nat region * GrainBytes h.

(** Modelled from the spec: [G1CMBitMap] (g1ConcurrentMarkBitMap.hpp) is
    not among the sources at hand.  One bit per heap granule of size G; the
    bit of the object at address A is (A - heap_base) / G; marking returns
    true iff the bit went from 0 to 1. *)
Record G1CMBitMap := mkBitMap {
  _covered_start : Z;
  _granule : Z;
  _bits : gset Z
}.

Definition addr_to_offset (bm : G1CMBitMap) (addr : Z) : Z :=
  (addr - _covered_start bm) / _granule bm.

Definition offset_to_addr (bm : G1CMBitMap) (offset : Z) : Z :=
  _covered_start bm + offset * _granule bm.

Definition is_marked (bm : G1CMBitMap) (addr : Z) : bool :=
  bool_decide (addr_to_offset bm addr ∈ _bits bm).

Definition par_mark (bm : G1CMBitMap) (addr : Z) : bool * G1CMBitMap :=
  if is_marked bm addr then (false, bm)
  else (true, {| _covered_start := _covered_start bm;
                 _granule := _granule bm;
                 _bits := {[ addr_to_offset bm addr ]} ∪ _bits bm |}).

(** ** G1ConcurrentMark: the coordinator *)

Record G1RegionMarkStats := mkStats { _live_words : Z; _incoming_refs : Z }.

Record G1ConcurrentMark := mkCM {
  _g1h : G1CollectedHeap;
  _mark_bitmap : G1CMBitMap;
  _heap : MemRegion;
  _global_mark_stack : G1CMMarkStack.t;
  _finger : Z;
  _has_overflown : bool;
  _region_mark_stats : list G1RegionMarkStats;
  _top_at_mark_starts : list Z
}.

Definition with_mark_bitmap (cm : G1ConcurrentMark) (bm : G1CMBitMap) :=
  {| _g1h := _g1h cm; _mark_bitmap := bm; _heap := _heap cm;
     _global_mark_stack := _global_mark_stack cm; _finger := _finger cm;
     _has_overflown := _has_overflown cm;
     _region_mark_stats := _region_mark_stats cm;
     _top_at_mark_starts := _top_at_mark_starts cm |}.

Definition with_global_mark_stack (cm : G1ConcurrentMark) (s : G1CMMarkStack.t) :=
  {| _g1h := _g1h cm; _mark_bitmap := _mark_bitmap cm; _heap := _heap cm;
     _global_mark_stack := s; _finger := _finger cm;
     _has_overflown := _has_overflown cm;
     _region_mark_stats := _region_mark_stats cm;
     _top_at_mark_starts := _top_at_mark_starts cm |}.

Definition with_finger (cm : G1ConcurrentMark) (f : Z) :=
  {| _g1h := _g1h cm; _mark_bitmap := _mark_bitmap cm; _heap := _heap cm;
     _global_mark_stack := _global_mark_stack cm; _finger := f;
     _has_overflown := _has_overflown cm;
     _region_mark_stats := _region_mark_stats cm;
     _top_at_mark_starts := _top_at_mark_starts cm |}.

Definition with_has_overflown (cm : G1ConcurrentMark) (b : bool) :=
  {| _g1h := _g1h cm; _mark_bitmap := _mark_bitmap cm; _heap := _heap cm;
     _global_mark_stack := _global_mark_stack cm; _finger := _finger cm;
     _has_overflown := b;
     _region_mark_stats := _region_mark_stats cm;
     _top_at_mark_starts := _top_at_mark_starts cm |}.

Definition with_region_mark_stats (cm : G1ConcurrentMark)
  (st : list G1RegionMarkStats) :=
  {| _g1h := _g1h cm; _mark_bitmap := _mark_bitmap cm; _heap := _heap cm;
     _global_mark_stack := _global_mark_stack cm; _finger := _finger cm;
     _has_overflown := _has_overflown cm;
     _region_mark_stats := st;
     _top_at_mark_starts := _top_at_mark_starts cm |}.

Definition finger (cm : G1ConcurrentMark) : Z := _finger cm.

Definition out_of_regions (cm : G1ConcurrentMark) : bool :=
  mr_end (_heap cm) <=? _finger cm.

Definition has_overflown (cm : G1ConcurrentMark) : bool := _has_overflown cm.
Definition set_has_overflown (cm : G1ConcurrentMark) : G1ConcurrentMark :=
  with_has_overflown cm true.
Definition clear_has_overflown (cm : G1ConcurrentMark) : G1ConcurrentMark :=
  with_has_overflown cm false.

(** The region statistics are an array indexed by the region; an index
    outside of it has no defined result ([None]). *)
Definition contains_live_object (cm : G1ConcurrentMark) (region : nat)
  : option bool :=
  st ← _region_mark_stats cm !! region;
  Some (negb (_live_words st =? 0)).

Definition live_bytes (cm : G1ConcurrentMark) (region : nat) : option Z :=
  st ← _region_mark_stats cm !! region;
  Some (wrap_word (_live_words st * HeapWordSize)).

Definition set_live_bytes (cm : G1ConcurrentMark) (region : nat)
  (live_bytes : Z) : option G1ConcurrentMark :=
  st ← _region_mark_stats cm !! region;
  Some (with_region_mark_stats cm
          (<[region := {| _live_words := live_bytes / HeapWordSize;
                          _incoming_refs := _incoming_refs st |}]>
             (_region_mark_stats cm))).

Definition incoming_refs (cm : G1ConcurrentMark) (region : nat) : option Z :=
  st ← _region_mark_stats cm !! region;
  Some (_incoming_refs st).

Definition mark_stack_size (cm : G1ConcurrentMark) : Z :=
  G1CMMarkStack.size (_global_mark_stack cm).
Definition partial_mark_stack_size_target (cm : G1ConcurrentMark) : Z :=
  G1CMMarkStack.stack_capacity (_global_mark_stack cm) / 3.
Definition mark_stack_empty (cm : G1ConcurrentMark) : bool :=
  G1CMMarkStack.is_empty (_global_mark_stack cm).

(** [mark_stack_push] is written against [par_push_chunk], whose body is
    not in the header: it is taken as given, as a function from the stack
    and the buffer to the outcome and the stack that results. *)
Section MarkStackTransfer.

Variable par_push_chunk :
  G1CMMarkStack.t -> G1CMMarkStack.Buffer -> bool * G1CMMarkStack.t.

Definition mark_stack_push (cm : G1ConcurrentMark) (arr : G1CMMarkStack.Buffer)
  : bool * G1ConcurrentMark :=
  let '(pushed, s) := par_push_chunk (_global_mark_stack cm) arr in
  let cm1 := with_global_mark_stack cm s in
  if negb pushed then (false, set_has_overflown cm1)
  else (true, cm1).

End MarkStackTransfer.

(** Modelled from the spec: the inline definitions of TAMS lookup and of
    [mark_in_bitmap] live in g1ConcurrentMark.inline.hpp, which is not among
    the sources at hand.  The header documents [mark_in_bitmap] as "mark the
    given object on the marking bitmap if it is below TAMS" and
    [obj_allocated_since_mark_start] as "at or above TAMS in that region";
    the statistics update is left to [add_to_liveness], to be called after
    a successful mark.  An address outside of the heap has no region and
    no defined result. *)
Definition top_at_mark_start (cm : G1ConcurrentMark) (region : nat) : option Z :=
  _top_at_mark_starts cm !! region.

Definition obj_allocated_since_mark_start (cm : G1ConcurrentMark) (obj : Z)
  : option bool :=
  region ← addr_to_region (_g1h cm) obj;
  tams ← top_at_mark_start cm region;
  Some (tams <=? obj).

Definition mark_in_bitmap (cm : G1ConcurrentMark) (worker_id : nat) (obj : Z)
  : option (bool * G1ConcurrentMark) :=
  allocated_since ← obj_allocated_since_mark_start cm obj;
  if allocated_since : bool then Some (false, cm)
  else
    let '(success, bm) := par_mark (_mark_bitmap cm) obj in
    Some (success, with_mark_bitmap cm bm).

(** What a marking cycle does to the bitmap: any number of
    [mark_in_bitmap] calls, by any worker, for any object. *)
Inductive marking_steps (cm : G1ConcurrentMark) : G1ConcurrentMark -> Prop :=
| marking_done : marking_steps cm cm
| marking_step cm1 cm2 worker_id obj res :
    marking_steps cm cm1 ->
    mark_in_bitmap cm1 worker_id obj = Some (res, cm2) ->
    marking_steps cm cm2.

(** Modelled from the spec: [claim_region] is defined in
    g1ConcurrentMark.cpp, which is not among the sources at hand.  It
    advances the finger by one region stride; it returns the region at the
    old finger unless that region is empty (bottom equal to TAMS), and null
    ([None]) for an empty region or when the finger has reached the heap
    end. *)
Definition claim_region (cm : G1ConcurrentMark) (worker_id : nat)
  : option (option nat * G1ConcurrentMark) :=
  let finger := _finger cm in
  if finger <? mr_end (_heap cm) then
    curr_region ← addr_to_region (_g1h cm) finger;
    limit ← top_at_mark_start cm curr_region;
    let bottom := region_bottom (_g1h cm) curr_region in
    let cm1 := with_finger cm (finger + GrainBytes (_g1h cm)) in
    if limit =? bottom then Some (None, cm1)
    else Some (Some curr_region, cm1)
  else Some (None, cm).

(** What the caller of [claim_region] makes of its result: on null,
    [out_of_regions] tells whether the regions have really run out or
    whether the task should call [claim_region] again. *)
Inductive claim_outcome :=
| Claimed (region : nat)
| TryAgain
| Exhausted.

Definition outcome_of (res : option nat * G1ConcurrentMark) : claim_outcome :=
  match fst res with
  | Some region => Claimed region
  | None => if out_of_regions (snd res) then Exhausted else TryAgain
  end.

(** ** G1CMTask: the clock limits of a marking task *)

Module G1CMTask.


Record t := mkTask {
  _words_scanned : Z;
  _words_scanned_limit : Z;
  _real_words_scanned_limit : Z;
  _refs_reached : Z;
  _refs_reached_limit : Z;
  _real_refs_reached_limit : Z;
  _has_aborted : bool
}.

Definition has_aborted (k : t) : bool := _has_aborted k.

Definition set_has_aborted (k : t) : t :=
  {| _words_scanned := _words_scanned k;
     _words_scanned_limit := _words_scanned_limit k;
     _real_words_scanned_limit := _real_words_scanned_limit k;
     _refs_reached := _refs_reached k;
     _refs_reached_limit := _refs_reached_limit k;
     _real_refs_reached_limit := _real_refs_reached_limit k;
     _has_aborted := true |}.

Definition increment_refs_reached (k : t) : t :=
  {| _words_scanned := _words_scanned k;
     _words_scanned_limit := _words_scanned_limit k;
     _real_words_scanned_limit := _real_words_scanned_limit k;
     _refs_reached := wrap_word (_refs_reached k + 1);
     _refs_reached_limit := _refs_reached_limit k;
     _real_refs_reached_limit := _real_refs_reached_limit k;
     _has_aborted := _has_aborted k |}.

(** [check_limits] calls [reached_limit], whose body is not in the header:
    it is taken as given, as a function on the task. *)
Section Clock.

Variable reached_limit : t -> t.

Definition check_limits (k : t) : t :=
  if (_words_scanned_limit k <=? _words_scanned k)
     || (_refs_reached_limit k <=? _refs_reached k)
  then reached_limit k
  else k.

End Clock.


End G1CMTask.

(** ** Further inline members of the header *)

(** [mark_stack_pop] hands the buffer to [par_pop_chunk], whose body is not
    in the header: it is taken as given, as a function from the stack and
    the buffer to the outcome, the stack and the buffer that result. *)
Section MarkStackPop.

Variable par_pop_chunk :
  G1CMMarkStack.t -> G1CMMarkStack.Buffer ->
  bool * G1CMMarkStack.t * G1CMMarkStack.Buffer.

Definition mark_stack_pop (cm : G1ConcurrentMark) (arr : G1CMMarkStack.Buffer)
  : bool * G1CMMarkStack.Buffer * G1ConcurrentMark :=
  let '(popped, s, arr1) := par_pop_chunk (_global_mark_stack cm) arr in
  (popped, arr1, with_global_mark_stack cm s).

End MarkStackPop.

(** The transfers between a task's queue and the global mark stack. *)
Inductive transfer :=
| Push (arr : G1CMMarkStack.Buffer)
| Pop (arr : G1CMMarkStack.Buffer).

Section Transfers.

Variable par_push_chunk :
  G1CMMarkStack.t -> G1CMMarkStack.Buffer -> bool * G1CMMarkStack.t.
Variable par_pop_chunk :
  G1CMMarkStack.t -> G1CMMarkStack.Buffer ->
  bool * G1CMMarkStack.t * G1CMMarkStack.Buffer.

Definition transfer_step (tr : transfer) (cm : G1ConcurrentMark)
  : bool * G1ConcurrentMark :=
  match tr with
  | Push arr => mark_stack_push par_push_chunk cm arr
  | Pop arr =>
      let '(popped, _, cm1) := mark_stack_pop par_pop_chunk cm arr in
      (popped, cm1)
  end.

(** A series of transfers, with the result of each. *)
Fixpoint run_transfers (trs : list transfer) (cm : G1ConcurrentMark)
  : list bool * G1ConcurrentMark :=
  match trs with
  | [] => ([], cm)
  | tr :: trs' =>
      let '(ok, cm1) := transfer_step tr cm in
      let '(oks, cm2) := run_transfers trs' cm1 in
      (ok :: oks, cm2)
  end.

End Transfers.

(** Whether some push of the series has failed. *)
Fixpoint push_failed (trs : list transfer) (oks : list bool) : bool :=
  match trs, oks with
  | Push _ :: trs', ok :: oks' => negb ok || push_failed trs' oks'
  | Pop _ :: trs', _ :: oks' => push_failed trs' oks'
  | _, _ => false
  end.

(** The local finger of a marking task: the two fields of [G1CMTask] that
    [move_finger_to] reads and writes. *)
Module G1CMTaskFinger.

Record t := mkFinger { _finger : Z; _region_limit : Z }.

Definition finger (k : t) : Z := _finger k.

(** [move_finger_to] asserts that the new finger is at or above the old
    one and below the region limit; a failed assertion is [None]. *)
Definition move_finger_to (k : t) (new_finger : Z) : option t :=
  if (_finger k <=? new_finger) && (new_finger <? _region_limit k)
  then Some {| _finger := new_finger; _region_limit := _region_limit k |}
  else None.

(** The finger moved to each address of a list in turn. *)
Fixpoint move_finger_through (k : t) (fingers : list Z) : option t :=
  match fingers with
  | [] => Some k
  | f :: fingers' => k1 ← move_finger_to k f; move_finger_through k1 fingers'
  end.

End G1CMTaskFinger.

(** ** Bit-level facts about words *)

(** Unfolds the bounds of a machine word, for [lia]. *)
Ltac word_bounds :=
  unfold is_word, word_modulus, BitsPerWord, HeapWordSize in *; simpl in *.

Lemma wrap_word_small (x : Z) : is_word x -> wrap_word x = x.
Proof. unfold is_word, wrap_word. intros H. now apply Z.mod_small. Qed.

Lemma wrap_uint_small (x : Z) : 0 <= x < 2 ^ 32 -> wrap_uint x = x.
Proof. unfold wrap_uint. intros H. now apply Z.mod_small. Qed.

Lemma testbit_one (n : Z) : 0 <= n -> Z.testbit 1 n = (n <? 1).
Proof.
  intros Hn. change 1 with (Z.ones 1) at 1.
  now rewrite Z.testbit_ones_nonneg by lia.
Qed.

Lemma word_high_bits (a n : Z) :
  is_word a -> BitsPerWord <= n -> Z.testbit a n = false.
Proof.
  unfold is_word, word_modulus, BitsPerWord. intros Ha Hn.
  destruct (Z.eq_dec a 0) as [->|Hne]; [apply Z.bits_0|].
  apply Z.bits_above_log2; [lia|].
  assert (Z.log2 a < 64) by (apply Z.log2_lt_pow2; lia). lia.
Qed.

Lemma even_low_bit (a : Z) : a mod 2 = 0 -> Z.testbit a 0 = false.
Proof.
  intros Ha. rewrite Z.bit0_odd, <- Z.negb_even.
  apply negb_false_iff, Z.even_spec. exists (a / 2).
  pose proof (Z.div_mod a 2). lia.
Qed.

Lemma odd_low_bit (a : Z) : a mod 2 = 1 -> Z.testbit a 0 = true.
Proof.
  intros Ha. rewrite Z.bit0_odd. apply Z.odd_spec. exists (a / 2).
  pose proof (Z.div_mod a 2). lia.
Qed.

Lemma land_one (a : Z) : Z.land a 1 = a mod 2.
Proof. change 1 with (Z.ones 1) at 1. now rewrite Z.land_ones by lia. Qed.

Lemma tag_even (a : Z) : a mod 2 = 0 -> Z.land (Z.lor a 1) 1 = 1.
Proof.
  intros Ha. apply Z.bits_inj'. intros n Hn.
  rewrite Z.land_spec, Z.lor_spec, testbit_one by lia.
  destruct (n <? 1) eqn:E; [|now rewrite andb_false_r].
  apply Z.ltb_lt in E. assert (n = 0) as -> by lia.
  now rewrite (even_low_bit a Ha).
Qed.

Lemma untag_even (a : Z) :
  is_word a -> a mod 2 = 0 -> Z.land (Z.lor a 1) (word_not 1) = a.
Proof.
  intros Hw Ha. apply Z.bits_inj'. intros n Hn.
  unfold word_not.
  rewrite Z.land_spec, Z.lor_spec, Z.lxor_spec, testbit_one by lia.
  rewrite Z.testbit_ones_nonneg by (unfold BitsPerWord; lia).
  destruct (n <? 1) eqn:E1.
  - apply Z.ltb_lt in E1. assert (n = 0) as -> by lia.
    rewrite (even_low_bit a Ha). reflexivity.
  - destruct (n <? BitsPerWord) eqn:E2; simpl.
    + now rewrite orb_false_r, andb_true_r.
    + apply Z.ltb_ge in E2. rewrite (word_high_bits a n Hw E2). reflexivity.
Qed.

(** ** Properties of the entry tagging *)

Module G1TaskQueueEntryFacts.
Import G1TaskQueueEntry.

Lemma is_array_slice_spec (e : t) :
  is_array_slice e = true <-> _holder e mod 2 = 1.
Proof.
  unfold is_array_slice, ArraySliceBit. rewrite land_one.
  pose proof (Z.mod_pos_bound (_holder e) 2).
  destruct (_holder e mod 2 =? 0) eqn:E; simpl.
  - apply Z.eqb_eq in E. split; [discriminate | lia].
  - apply Z.eqb_neq in E. split; [lia | reflexivity].
Qed.

Lemma from_slice_is_array_slice (a : Z) :
  a mod 2 = 0 -> is_array_slice (from_slice a) = true.
Proof.
  intros Ha. unfold is_array_slice, from_slice, ArraySliceBit. simpl.
  now rewrite (tag_even a Ha).
Qed.

Lemma aligned_not_array_slice (o : Z) :
  o mod 2 = 0 -> is_array_slice (mk o) = false.
Proof.
  intros Ho. unfold is_array_slice, ArraySliceBit. simpl.
  now rewrite land_one, Ho.
Qed.

Lemma never_both (e : t) : is_oop e && is_array_slice e = false.
Proof. unfold is_oop. now destruct (is_array_slice e). Qed.

(** C4: tagging round-trips.  An even (2-byte-or-more aligned) word [a]
    turned into a slice entry is an array slice, is not an oop, and
    [slice()] gives [a] back; a non-null even object reference [o] turned
    into an oop entry is an oop, is not an array slice, and [obj()] gives
    [o] back; and no entry at all is both an oop and an array slice. *)
Theorem tagging_round_trip :
  (forall a, is_word a -> a mod 2 = 0 ->
     is_array_slice (from_slice a) = true /\
     is_oop (from_slice a) = false /\
     slice (from_slice a) = Some a) /\
  (forall o, is_word o -> o <> 0 -> o mod 2 = 0 ->
     exists e, from_oop o = Some e /\
       is_oop e = true /\ is_array_slice e = false /\ obj e = Some o) /\
  (forall e, (is_oop e && is_array_slice e) = false).
Proof.
  split; [|split].
  - intros a Hw Ha.
    pose proof (from_slice_is_array_slice a Ha) as Hs.
    unfold is_oop, slice. rewrite Hs. repeat split.
    unfold from_slice, ArraySliceBit. simpl. f_equal.
    now apply untag_even.
  - intros o _ Hnz Ho. exists (mk o).
    pose proof (aligned_not_array_slice o Ho) as Hs.
    unfold from_oop, is_oop, obj. rewrite Hs.
    destruct (o =? 0) eqn:E; [apply Z.eqb_eq in E; contradiction|].
    repeat split.
  - exact never_both.
Qed.

Lemma tagging_round_trip_witness :
  (is_array_slice (from_slice 4096) = true /\
   is_oop (from_slice 4096) = false /\
   slice (from_slice 4096) = Some 4096) /\
  (exists e, from_oop 4104 = Some e /\
     is_oop e = true /\ is_array_slice e = false /\ obj e = Some 4104).
Proof.
  split.
  - apply (proj1 tagging_round_trip 4096);
      [word_bounds; lia | reflexivity].
  - apply (proj1 (proj2 tagging_round_trip) 4104);
      [word_bounds; lia | lia | reflexivity].
Defined.

(** C9: the default-constructed entry (the empty slot) is null, is not an
    array slice, is classified as an oop, and [obj()] passes its assertion
    and returns the null oop. *)
Theorem empty_entry_is_null_oop :
  is_null empty = true /\
  is_array_slice empty = false /\
  is_oop empty = true /\
  obj empty = Some 0.
Proof. repeat split. Qed.

End G1TaskQueueEntryFacts.

(** ** The mark stack: bucket index arithmetic, growth policy, chunk layout *)

Module G1CMMarkStackFacts.
Import G1CMMarkStack.

(** The index interval that bucket [k] is meant to hold, for a minimum
    capacity [m]: [[0, m)] for bucket 0 and [[m*2^(k-1), m*2^k)] above. *)
Definition bucket_first (m k : Z) : Z :=
  if k =? 0 then 0 else m * 2 ^ (k - 1).
Definition bucket_limit (m k : Z) : Z := m * 2 ^ k.

Lemma testbit_top (x n : Z) :
  0 <= n -> 0 < x < 2 ^ (n + 1) ->
  Z.testbit x n = true <-> 2 ^ n <= x.
Proof.
  intros Hn Hx. split.
  - intros Hb. destruct (Z_lt_le_dec x (2 ^ n)) as [Hlt|Hge]; [|exact Hge].
    assert (Z.log2 x < n) by (apply Z.log2_lt_pow2; lia).
    rewrite Z.bits_above_log2 in Hb by lia. discriminate.
  - intros Hge.
    assert (Z.log2 x = n) as <- by (apply Z.log2_unique; lia).
    apply Z.bit_log2. lia.
Qed.

Lemma leading_zeros_below_log2 (n : nat) (x : Z) :
  0 < x < 2 ^ Z.of_nat n ->
  leading_zeros_below n x = Z.of_nat n - 1 - Z.log2 x.
Proof.
  induction n as [|n IH]; intros Hx.
  - simpl in Hx. lia.
  - rewrite Nat2Z.inj_succ, <- Z.add_1_r in Hx.
    simpl leading_zeros_below.
    pose proof (testbit_top x (Z.of_nat n) (Nat2Z.is_nonneg n) Hx) as Htop.
    destruct (Z.testbit x (Z.of_nat n)) eqn:Hb.
    + assert (2 ^ Z.of_nat n <= x) as Hge by (now apply Htop).
      assert (Z.log2 x = Z.of_nat n) by (apply Z.log2_unique; lia).
      lia.
    + assert (x < 2 ^ Z.of_nat n) as Hlt.
      { destruct (Z_lt_le_dec x (2 ^ Z.of_nat n)) as [H|H]; [exact H|].
        apply Htop in H. discriminate. }
      rewrite IH by lia. lia.
Qed.

Lemma log2_word (x : Z) : 0 < x -> is_word x -> 0 <= Z.log2 x < BitsPerWord.
Proof.
  unfold is_word, word_modulus. intros Hpos Hx. split.
  - apply Z.log2_nonneg.
  - apply Z.log2_lt_pow2; lia.
Qed.

Lemma count_leading_zeros_log2 (x : Z) :
  0 < x -> is_word x -> count_leading_zeros x = BitsPerWord - 1 - Z.log2 x.
Proof.
  intros Hpos Hx. unfold count_leading_zeros.
  rewrite leading_zeros_below_log2.
  - rewrite Z2Nat.id by (unfold BitsPerWord; lia). reflexivity.
  - rewrite Z2Nat.id by (unfold BitsPerWord; lia).
    unfold is_word, word_modulus in Hx. lia.
Qed.

Lemma lxor_63 (c : Z) : 0 <= c <= 63 -> Z.lxor c 63 = 63 - c.
Proof.
  intros Hc.
  assert (forallb (fun n => Z.lxor (Z.of_nat n) 63 =? 63 - Z.of_nat n)
            (seq 0 64) = true) as Hall by (vm_compute; reflexivity).
  rewrite forallb_forall in Hall.
  specialize (Hall (Z.to_nat c)).
  rewrite Z2Nat.id in Hall by lia.
  apply Z.eqb_eq, Hall, in_seq. lia.
Qed.

Lemma find_highest_bit_log2 (x : Z) :
  0 < x -> is_word x -> find_highest_bit x = Z.log2 x.
Proof.
  intros Hpos Hx. unfold find_highest_bit.
  rewrite (count_leading_zeros_log2 x Hpos Hx).
  pose proof (log2_word x Hpos Hx) as Hl. unfold BitsPerWord in *.
  change (wrap_uint (64 - 1)) with 63.
  rewrite lxor_63 by lia. lia.
Qed.

Lemma pow2_word (h : Z) : 0 <= h < BitsPerWord -> is_word (2 ^ h).
Proof.
  unfold is_word, word_modulus, BitsPerWord. intros Hh. split.
  - apply Z.pow_nonneg. lia.
  - apply Z.pow_lt_mono_r; lia.
Qed.

Lemma pow2_bounds (x : Z) :
  0 < x -> 2 ^ Z.log2 x <= x < 2 ^ (Z.log2 x + 1).
Proof.
  intros Hx. pose proof (Z.log2_spec x Hx) as H.
  now rewrite <- Z.add_1_r in H.
Qed.

Lemma below_min (a : ChunkAllocator) (idx : Z) :
  idx < _min_capacity a ->
  get_bucket a idx = 0 /\ get_bucket_index a idx = idx.
Proof.
  intros Hlt. unfold get_bucket, get_bucket_index.
  apply Z.ltb_lt in Hlt. now rewrite Hlt.
Qed.

Section PowerOfTwoMinimum.

Variable a : ChunkAllocator.
Variable j : Z.
Hypothesis j_range : 0 <= j < BitsPerWord.
Hypothesis min_pow2 : _min_capacity a = 2 ^ j.

Lemma min_capacity_pos : 0 < _min_capacity a.
Proof. rewrite min_pow2. apply Z.pow_pos_nonneg; lia. Qed.

Lemma find_highest_bit_min : find_highest_bit (_min_capacity a) = j.
Proof.
  rewrite find_highest_bit_log2.
  - rewrite min_pow2. apply Z.log2_pow2. lia.
  - exact min_capacity_pos.
  - rewrite min_pow2. now apply pow2_word.
Qed.

Lemma log2_above_min (idx : Z) :
  _min_capacity a <= idx -> is_word idx -> j <= Z.log2 idx < BitsPerWord.
Proof.
  intros Hge Hw. pose proof min_capacity_pos as Hm. split.
  - rewrite <- (Z.log2_pow2 j) by lia. rewrite <- min_pow2.
    now apply Z.log2_le_mono.
  - apply log2_word; [lia | exact Hw].
Qed.

Lemma above_min (idx : Z) :
  _min_capacity a <= idx -> is_word idx ->
  get_bucket a idx = Z.log2 idx - j + 1 /\
  get_bucket_index a idx = idx - 2 ^ Z.log2 idx.
Proof.
  intros Hge Hw. pose proof min_capacity_pos as Hm.
  pose proof (log2_above_min idx Hge Hw) as Hl.
  assert (0 < idx) as Hpos by lia.
  pose proof (pow2_bounds idx Hpos) as Hb.
  unfold get_bucket, get_bucket_index.
  assert ((idx <? _min_capacity a) = false) as -> by (apply Z.ltb_ge; lia).
  rewrite find_highest_bit_min.
  rewrite (find_highest_bit_log2 idx Hpos Hw).
  split.
  - apply wrap_uint_small. unfold BitsPerWord in *. lia.
  - rewrite Z.shiftl_1_l.
    rewrite (wrap_word_small (2 ^ Z.log2 idx)) by (apply pow2_word; lia).
    apply wrap_word_small. unfold is_word in *. lia.
Qed.

Lemma bucket_size_of_bucket (k : Z) :
  1 <= k -> j + k - 1 < BitsPerWord ->
  bucket_size a k = 2 ^ (j + k - 1).
Proof.
  intros Hk Hfit. unfold bucket_size.
  assert ((k =? 0) = false) as -> by (apply Z.eqb_neq; lia).
  rewrite Z.shiftl_1_l, min_pow2.
  rewrite (wrap_word_small (2 ^ (k - 1))) by (apply pow2_word; lia).
  rewrite <- Z.pow_add_r by lia.
  replace (j + (k - 1)) with (j + k - 1) by lia.
  apply wrap_word_small, pow2_word. lia.
Qed.

Lemma interval_of_bucket (k : Z) :
  1 <= k ->
  bucket_first (_min_capacity a) k = 2 ^ (j + k - 1) /\
  bucket_limit (_min_capacity a) k = 2 ^ (j + k).
Proof.
  intros Hk. unfold bucket_first, bucket_limit.
  assert ((k =? 0) = false) as -> by (apply Z.eqb_neq; lia).
  rewrite min_pow2, <- !Z.pow_add_r by lia.
  split; f_equal; lia.
Qed.

Lemma bucket_of_interval (idx k : Z) :
  is_word idx -> 0 <= k ->
  bucket_first (_min_capacity a) k <= idx < bucket_limit (_min_capacity a) k ->
  get_bucket a idx = k.
Proof.
  intros Hw Hk Hin. pose proof min_capacity_pos as Hm.
  destruct (Z.eq_dec k 0) as [->|Hne].
  - unfold bucket_limit in Hin. rewrite Z.pow_0_r, Z.mul_1_r in Hin.
    apply below_min. lia.
  - destruct (interval_of_bucket k ltac:(lia)) as [Hf Hl].
    rewrite Hf in Hin. rewrite Hl in Hin.
    assert (2 ^ j <= 2 ^ (j + k - 1)) by (apply Z.pow_le_mono_r; lia).
    assert (Z.log2 idx = j + k - 1) as Hlog.
    { apply Z.log2_unique; [lia|].
      now replace (Z.succ (j + k - 1)) with (j + k) by lia. }
    destruct (above_min idx) as [Hb _]; [lia | exact Hw |].
    rewrite Hb, Hlog. lia.
Qed.

Lemma interval_of_index (idx : Z) :
  is_word idx ->
  bucket_first (_min_capacity a) (get_bucket a idx) <= idx
    < bucket_limit (_min_capacity a) (get_bucket a idx).
Proof.
  intros Hw. pose proof min_capacity_pos as Hm.
  destruct (Z_lt_le_dec idx (_min_capacity a)) as [Hlt|Hge].
  - destruct (below_min a idx Hlt) as [-> _].
    unfold bucket_first, bucket_limit. simpl.
    unfold is_word in Hw. lia.
  - destruct (above_min idx Hge Hw) as [-> _].
    pose proof (log2_above_min idx Hge Hw) as Hl.
    destruct (interval_of_bucket (Z.log2 idx - j + 1) ltac:(lia)) as [-> ->].
    replace (j + (Z.log2 idx - j + 1) - 1) with (Z.log2 idx) by lia.
    replace (j + (Z.log2 idx - j + 1)) with (Z.log2 idx + 1) by lia.
    apply pow2_bounds. lia.
Qed.

Lemma offset_in_bucket (idx : Z) :
  is_word idx ->
  idx = bucket_first (_min_capacity a) (get_bucket a idx) + get_bucket_index a idx /\
  0 <= get_bucket_index a idx < bucket_size a (get_bucket a idx).
Proof.
  intros Hw. pose proof min_capacity_pos as Hm.
  destruct (Z_lt_le_dec idx (_min_capacity a)) as [Hlt|Hge].
  - destruct (below_min a idx Hlt) as [-> ->].
    unfold bucket_first, bucket_size. simpl.
    unfold is_word in Hw. lia.
  - destruct (above_min idx Hge Hw) as [-> ->].
    pose proof (log2_above_min idx Hge Hw) as Hl.
    destruct (interval_of_bucket (Z.log2 idx - j + 1) ltac:(lia)) as [-> _].
    rewrite bucket_size_of_bucket by lia.
    replace (j + (Z.log2 idx - j + 1) - 1) with (Z.log2 idx) by lia.
    pose proof (pow2_bounds idx ltac:(lia)) as Hb.
    rewrite Z.pow_add_r, Z.pow_1_r in Hb by lia.
    lia.
Qed.

End PowerOfTwoMinimum.

(** C3: the index arithmetic of the bucketed allocator.  With a minimum
    capacity [m = 2^j] and a logical index [idx], [get_bucket] is 0 below
    [m] and [floor(log2 idx) - floor(log2 m) + 1] from [m] on;
    [get_bucket_index] is [idx] below [m] and [idx - 2^floor(log2 idx)]
    from [m] on; [idx] lies in bucket [k] exactly when it lies in the
    index interval of [k], which is [[0, m)] for [k = 0] and
    [[m*2^(k-1), m*2^k)] for [k >= 1]; and the offset, counted from the
    first index of the bucket, is below [bucket_size k]. *)
Theorem bucket_index_math (a : ChunkAllocator) (j idx : Z) :
  0 <= j < BitsPerWord ->
  _min_capacity a = 2 ^ j ->
  is_word idx ->
  let m := _min_capacity a in
  let k := get_bucket a idx in
  let offset := get_bucket_index a idx in
  (idx < m -> k = 0 /\ offset = idx) /\
  (m <= idx ->
     k = Z.log2 idx - Z.log2 m + 1 /\ offset = idx - 2 ^ Z.log2 idx) /\
  (forall k', 0 <= k' ->
     k = k' <-> bucket_first m k' <= idx < bucket_limit m k') /\
  bucket_first m 0 = 0 /\ bucket_limit m 0 = m /\
  (forall k', 1 <= k' ->
     bucket_first m k' = m * 2 ^ (k' - 1) /\ bucket_limit m k' = m * 2 ^ k') /\
  idx = bucket_first m k + offset /\
  0 <= offset < bucket_size a k.
Proof.
  intros Hj Hm Hw m k offset. subst m k offset.
  split; [|split; [|split; [|split; [|split; [|split]]]]].
  - intros Hlt. now apply below_min.
  - intros Hge. rewrite Hm at 1. rewrite Z.log2_pow2 by lia.
    now apply (above_min a j Hj Hm).
  - intros k' Hk'. split.
    + intros <-. now apply (interval_of_index a j Hj Hm).
    + intros Hin. now apply (bucket_of_interval a j Hj Hm).
  - reflexivity.
  - unfold bucket_limit. lia.
  - intros k' Hk'. unfold bucket_first, bucket_limit.
    assert ((k' =? 0) = false) as -> by (apply Z.eqb_neq; lia). split; reflexivity.
  - now apply (offset_in_bucket a j Hj Hm).
Qed.

Definition example_allocator : ChunkAllocator :=
  {| _min_capacity := 4; _max_capacity := 16; _capacity := 4;
     _num_buckets := 4; _should_grow := false;
     _buckets := [true; false; false; false]; _size := 0 |}.

Lemma bucket_index_math_witness :
  (0 <= 2 < BitsPerWord /\ _min_capacity example_allocator = 2 ^ 2 /\ is_word 13) /\
  get_bucket example_allocator 13 = Z.log2 13 - Z.log2 4 + 1 /\
  get_bucket_index example_allocator 13 = 13 - 2 ^ Z.log2 13 /\
  13 = bucket_first 4 (get_bucket example_allocator 13)
       + get_bucket_index example_allocator 13 /\
  0 <= get_bucket_index example_allocator 13
    < bucket_size example_allocator (get_bucket example_allocator 13).
Proof.
  assert (0 <= 2 < BitsPerWord) as Hj by (unfold BitsPerWord; lia).
  assert (_min_capacity example_allocator = 2 ^ 2) as Hm by reflexivity.
  assert (is_word 13) as Hw by (word_bounds; lia).
  split; [auto|].
  destruct (bucket_index_math example_allocator 2 13 Hj Hm Hw)
    as (_ & Habove & _ & _ & _ & _ & Hsum & Hoff).
  destruct Habove as [Hk Ho]; [simpl; lia|].
  auto.
Defined.

Example get_bucket_13 :
  get_bucket example_allocator 13 = 2 /\
  get_bucket_index example_allocator 13 = 5 /\
  bucket_size example_allocator 2 = 8.
Proof. repeat split. Qed.

Example get_bucket_boundaries :
  map (get_bucket example_allocator) [0; 3; 4; 7; 8; 15; 16] = [0; 0; 1; 1; 2; 2; 3] /\
  map (get_bucket_index example_allocator) [0; 3; 4; 7; 8; 15; 16] = [0; 3; 0; 3; 0; 7; 0].
Proof. split; reflexivity. Qed.

(** *** The grow-on-overflow policy *)
















(** *** The chunk layout and the size of the stack *)

Lemma entries_per_chunk : Z.to_nat EntriesPerChunk = 1023%nat.
Proof. reflexivity. Qed.

(** C7: a chunk is one next pointer and an array of exactly 1023 entries,
    and [size()] is [_chunks_in_chunk_list * 1023] (in [size_t]
    arithmetic, which is exact as long as the chunks fit the address
    space). *)
Theorem chunk_layout_and_size :
  EntriesPerChunk = 1023 /\
  (forall c : TaskQueueEntryChunk,
     length (vec_to_list (data c)) = 1023%nat /\ chunk_words c = 1 + 1023) /\
  (forall s, size s = wrap_word (_chunks_in_chunk_list s * 1023)) /\
  (forall s, 0 <= _chunks_in_chunk_list s ->
     _chunks_in_chunk_list s * (1024 * HeapWordSize) < word_modulus ->
     size s = _chunks_in_chunk_list s * 1023).
Proof.
  split; [reflexivity|]. split; [|split].
  - intros c. unfold chunk_words. rewrite length_vec_to_list, entries_per_chunk.
    split; reflexivity.
  - reflexivity.
  - intros s Hpos Hfit. unfold size. apply wrap_word_small.
    unfold is_word, EntriesPerChunk, HeapWordSize in *. lia.
Qed.

Definition example_stack : G1CMMarkStack.t :=
  {| _chunk_allocator := example_allocator;
     _free_list := None;
     _chunk_list := Some (Chunk None (vreplicate _ G1TaskQueueEntry.empty));
     _chunks_in_chunk_list := 1 |}.

Lemma chunk_layout_and_size_witness :
  size example_stack = 1 * 1023.
Proof.
  apply (proj2 (proj2 (proj2 chunk_layout_and_size)) example_stack).
  - simpl. lia.
  - unfold word_modulus, BitsPerWord, HeapWordSize. simpl. lia.
Defined.

End G1CMMarkStackFacts.

(** ** The coordinator: overflow flag, live bytes, regions and marking *)

Module G1ConcurrentMarkFacts.

Lemma with_mark_bitmap_same (cm : G1ConcurrentMark) :
  with_mark_bitmap cm (_mark_bitmap cm) = cm.
Proof. now destruct cm. Qed.

(** *** Pushing to the global mark stack *)

Section MarkStackPush.

Variable par_push_chunk :
  G1CMMarkStack.t -> G1CMMarkStack.Buffer -> bool * G1CMMarkStack.t.

(** C2: [mark_stack_push] returns true exactly when [par_push_chunk]
    succeeds; when it returns false the overflow flag is set on return,
    and when it returns true the flag is as it was.  The stack is the one
    [par_push_chunk] leaves, and nothing else changes. *)
Theorem mark_stack_push_overflow (cm : G1ConcurrentMark)
  (arr : G1CMMarkStack.Buffer) :
  let pushed := par_push_chunk (_global_mark_stack cm) arr in
  let res := mark_stack_push par_push_chunk cm arr in
  (fst res = true <-> fst pushed = true) /\
  (fst res = false -> _has_overflown (snd res) = true) /\
  (fst res = true -> _has_overflown (snd res) = _has_overflown cm) /\
  snd res =
    with_has_overflown (with_global_mark_stack cm (snd pushed))
      (if fst res then _has_overflown cm else true).
Proof.
  intros pushed res. subst pushed res. unfold mark_stack_push.
  destruct (par_push_chunk (_global_mark_stack cm) arr) as [[|] s]; simpl.
  - repeat split; discriminate.
  - repeat split; discriminate.
Qed.

End MarkStackPush.

(** A stack whose four reserved chunks are all in use, with growing off. *)
Definition full_stack : G1CMMarkStack.t :=
  {| G1CMMarkStack._chunk_allocator :=
       G1CMMarkStack.with_size G1CMMarkStackFacts.example_allocator 4;
     G1CMMarkStack._free_list := None;
     G1CMMarkStack._chunk_list := None;
     G1CMMarkStack._chunks_in_chunk_list := 4 |}.

Definition example_heap : G1CollectedHeap :=
  {| heap_base := 4096; GrainBytes := 1024 |}.

(** Three regions: the first empty (TAMS at bottom), the second with its
    TAMS in the middle, the third full. *)
Definition example_cm : G1ConcurrentMark :=
  {| _g1h := example_heap;
     _mark_bitmap := {| _covered_start := 4096; _granule := 8; _bits := ∅ |};
     _heap := {| mr_start := 4096; mr_end := 7168 |};
     _global_mark_stack := full_stack;
     _finger := 4096;
     _has_overflown := false;
     _region_mark_stats :=
       [ {| _live_words := 0; _incoming_refs := 0 |};
         {| _live_words := 24; _incoming_refs := 3 |};
         {| _live_words := 128; _incoming_refs := 7 |} ];
     _top_at_mark_starts := [4096; 5632; 7168] |}.

Definition empty_buffer : G1CMMarkStack.Buffer :=
  vreplicate _ G1TaskQueueEntry.empty.

Lemma mark_stack_push_overflow_witness :
  fst (mark_stack_push (G1CMMarkStack.par_push_chunk true) example_cm empty_buffer)
    = false /\
  _has_overflown
    (snd (mark_stack_push (G1CMMarkStack.par_push_chunk true) example_cm empty_buffer))
    = true.
Proof.
  assert (fst (mark_stack_push (G1CMMarkStack.par_push_chunk true)
                 example_cm empty_buffer) = false) as Hf
    by (vm_compute; reflexivity).
  split; [exact Hf|].
  exact (proj1 (proj2 (mark_stack_push_overflow
                         (G1CMMarkStack.par_push_chunk true)
                         example_cm empty_buffer)) Hf).
Defined.

(** *** Live bytes *)

Lemma live_bytes_lookup cm region st :
  _region_mark_stats cm !! region = Some st ->
  live_bytes cm region = Some (wrap_word (_live_words st * HeapWordSize)).
Proof. intros H. unfold live_bytes. now rewrite H. Qed.

Lemma word_aligned_round_trip (b : Z) :
  is_word b -> b mod HeapWordSize = 0 ->
  wrap_word (b / HeapWordSize * HeapWordSize) = b.
Proof.
  intros Hw Hb. unfold HeapWordSize in *.
  pose proof (Z.div_mod b 8). rewrite wrap_word_small; unfold is_word in *; lia.
Qed.

(** C8: [live_bytes] of a region is its recorded [_live_words] times
    [HeapWordSize] (in [size_t] arithmetic, exact when the product fits a
    word), and [set_live_bytes] with a multiple of the word size followed
    by [live_bytes] gives that number of bytes back. *)
Theorem live_bytes_words :
  (forall cm region st,
     _region_mark_stats cm !! region = Some st ->
     live_bytes cm region = Some (wrap_word (_live_words st * HeapWordSize)) /\
     (is_word (_live_words st * HeapWordSize) ->
      live_bytes cm region = Some (_live_words st * HeapWordSize))) /\
  (forall cm region b,
     (region < length (_region_mark_stats cm))%nat ->
     is_word b -> b mod HeapWordSize = 0 ->
     exists cm', set_live_bytes cm region b = Some cm' /\
                 live_bytes cm' region = Some b).
Proof.
  split.
  - intros cm region st Hst. rewrite (live_bytes_lookup cm region st Hst).
    split; [reflexivity|]. intros Hw. now rewrite wrap_word_small.
  - intros cm region b Hr Hw Hb.
    destruct (lookup_lt_is_Some_2 _ _ Hr) as [st Hst].
    unfold set_live_bytes. rewrite Hst. simpl. eexists. split; [reflexivity|].
    unfold live_bytes. simpl.
    rewrite list_lookup_insert_eq by exact Hr. simpl.
    now rewrite word_aligned_round_trip.
Qed.

Lemma live_bytes_words_witness :
  live_bytes example_cm 1 = Some (24 * HeapWordSize) /\
  exists cm', set_live_bytes example_cm 2 4096 = Some cm' /\
              live_bytes cm' 2 = Some 4096.
Proof.
  split.
  - apply (proj1 live_bytes_words example_cm 1%nat
             {| _live_words := 24; _incoming_refs := 3 |}); [reflexivity|].
    word_bounds. lia.
  - apply (proj2 live_bytes_words example_cm 2%nat 4096).
    + simpl. lia.
    + word_bounds. lia.
    + reflexivity.
Defined.

(** *** Claiming regions *)

Lemma out_of_regions_spec cm :
  out_of_regions cm = true <-> mr_end (_heap cm) <= _finger cm.
Proof. unfold out_of_regions. apply Z.leb_le. Qed.

(** What [claim_region] can do, case by case. *)
Lemma claim_region_cases cm worker_id res cm' :
  claim_region cm worker_id = Some (res, cm') ->
  (mr_end (_heap cm) <= _finger cm /\ res = None /\ cm' = cm) \/
  (_finger cm < mr_end (_heap cm) /\
   cm' = with_finger cm (_finger cm + GrainBytes (_g1h cm)) /\
   exists region limit,
     addr_to_region (_g1h cm) (_finger cm) = Some region /\
     top_at_mark_start cm region = Some limit /\
     ((limit = region_bottom (_g1h cm) region /\ res = None) \/
      (limit <> region_bottom (_g1h cm) region /\ res = Some region))).
Proof.
  unfold claim_region.
  destruct (_finger cm <? mr_end (_heap cm)) eqn:Hf.
  - apply Z.ltb_lt in Hf. intros H. right.
    destruct (addr_to_region (_g1h cm) (_finger cm)) as [region|] eqn:Hr;
      [|discriminate].
    simpl in H.
    destruct (top_at_mark_start cm region) as [limit|] eqn:Ht; [|discriminate].
    simpl in H.
    destruct (limit =? region_bottom (_g1h cm) region) eqn:He;
      inversion H; subst; (split; [exact Hf|]); (split; [reflexivity|]);
      exists region, limit; (split; [reflexivity|]); (split; [exact Ht|]).
    + left. apply Z.eqb_eq in He. auto.
    + right. apply Z.eqb_neq in He. auto.
  - apply Z.ltb_ge in Hf. intros H. inversion H; subst. left.
    split; [exact Hf|]. split; reflexivity.
Qed.

(** [claim_region] has a result whenever the finger, if below the heap
    end, lies in a region that the TAMS table covers. *)
Lemma claim_region_defined cm worker_id :
  (_finger cm < mr_end (_heap cm) ->
   exists region limit,
     addr_to_region (_g1h cm) (_finger cm) = Some region /\
     top_at_mark_start cm region = Some limit) ->
  exists res cm', claim_region cm worker_id = Some (res, cm').
Proof.
  intros Hin. unfold claim_region.
  destruct (_finger cm <? mr_end (_heap cm)) eqn:Hf; [|eauto].
  apply Z.ltb_lt in Hf. destruct (Hin Hf) as (region & limit & Hr & Ht).
  rewrite Hr. simpl. rewrite Ht. simpl. destruct (limit =? _); eauto.
Qed.

(** C5: [out_of_regions] holds exactly when the finger is at or above
    the heap end.  A call of [claim_region] with the regions run out
    returns null and changes nothing, so the exhaustion is permanent;
    the caller reads exhaustion off a null result only with the finger
    at or above the heap end; and a null result with the finger still
    below the heap end means that the region at the old finger was empty
    (its TAMS at its bottom) and has been skipped, the finger having
    moved on by one region, so that the caller calls again. *)
Theorem region_exhaustion :
  (forall cm, out_of_regions cm = true <-> mr_end (_heap cm) <= _finger cm) /\
  (forall cm worker_id,
     out_of_regions cm = true ->
     claim_region cm worker_id = Some (None, cm) /\
     outcome_of (None, cm) = Exhausted) /\
  (forall cm worker_id res cm',
     claim_region cm worker_id = Some (res, cm') ->
     outcome_of (res, cm') = Exhausted ->
     res = None /\ _heap cm' = _heap cm /\ mr_end (_heap cm') <= _finger cm') /\
  (forall cm worker_id res cm',
     claim_region cm worker_id = Some (res, cm') ->
     outcome_of (res, cm') = TryAgain ->
     res = None /\ _finger cm' < mr_end (_heap cm') /\
     _finger cm' = _finger cm + GrainBytes (_g1h cm) /\
     exists region,
       addr_to_region (_g1h cm) (_finger cm) = Some region /\
       top_at_mark_start cm region = Some (region_bottom (_g1h cm) region)).
Proof.
  split; [exact out_of_regions_spec|]. split; [|split].
  - intros cm worker_id Hout. unfold claim_region, outcome_of. simpl.
    rewrite Hout. split; [|reflexivity].
    apply out_of_regions_spec in Hout.
    assert ((_finger cm <? mr_end (_heap cm)) = false) as ->
      by (apply Z.ltb_ge; exact Hout).
    reflexivity.
  - intros cm worker_id res cm' Hclaim Hout. unfold outcome_of in Hout.
    simpl in Hout. destruct res as [region|]; [discriminate|].
    destruct (out_of_regions cm') eqn:Ho; [|discriminate].
    apply out_of_regions_spec in Ho.
    split; [reflexivity|]. split; [|exact Ho].
    destruct (claim_region_cases _ _ _ _ Hclaim)
      as [(_ & _ & ->)|(_ & -> & _)]; reflexivity.
  - intros cm worker_id res cm' Hclaim Hout. unfold outcome_of in Hout.
    simpl in Hout. destruct res as [region|]; [discriminate|].
    destruct (out_of_regions cm') eqn:Ho; [discriminate|].
    assert (_finger cm' < mr_end (_heap cm')) as Hbelow
      by (unfold out_of_regions in Ho; apply Z.leb_gt in Ho; exact Ho).
    destruct (claim_region_cases _ _ _ _ Hclaim)
      as [(Hend & _ & ->)|(_ & -> & region & limit & Hr & Ht & Hcase)].
    + lia.
    + split; [reflexivity|]. split; [exact Hbelow|]. split; [reflexivity|].
      exists region. split; [exact Hr|].
      destruct Hcase as [[-> _]|[_ Hres]]; [exact Ht | discriminate].
Qed.

Lemma region_exhaustion_witness :
  (exists cm', claim_region example_cm 0 = Some (None, cm') /\
     _finger cm' < mr_end (_heap cm') /\
     _finger cm' = _finger example_cm + GrainBytes (_g1h example_cm)) /\
  claim_region (with_finger example_cm 7168) 0
    = Some (None, with_finger example_cm 7168).
Proof.
  split.
  - eexists. split; [reflexivity|].
    pose proof (proj2 (proj2 (proj2 region_exhaustion)) example_cm 0%nat None _
                  eq_refl eq_refl) as (_ & Hbelow & Hnext & _).
    split; [exact Hbelow | exact Hnext].
  - apply (proj1 (proj2 region_exhaustion) (with_finger example_cm 7168) 0%nat).
    reflexivity.
Defined.

Example claim_region_sequence :
  (cm1 ← snd <$> claim_region example_cm 0;
   r2 ← claim_region cm1 0;
   r3 ← claim_region (snd r2) 0;
   r4 ← claim_region (snd r3) 0;
   Some (outcome_of (None, cm1), outcome_of r2, outcome_of r3, outcome_of r4))
  = Some (TryAgain, Claimed 1, Claimed 2, Exhausted).
Proof. reflexivity. Qed.

(** *** Marking below TAMS *)

(** The bitmap and the heap agree on the layout: granules of a positive
    size that divide the regions evenly, counted from the heap base. *)
Definition wf_marking (cm : G1ConcurrentMark) : Prop :=
  0 < _granule (_mark_bitmap cm) /\
  _covered_start (_mark_bitmap cm) = heap_base (_g1h cm) /\
  exists n, 0 < n /\ GrainBytes (_g1h cm) = _granule (_mark_bitmap cm) * n.

(** The address of bit [b] lies in a region whose TAMS is above it. *)
Definition bit_below_tams (cm : G1ConcurrentMark) (b : Z) : Prop :=
  exists region tams,
    addr_to_region (_g1h cm) (offset_to_addr (_mark_bitmap cm) b) = Some region /\
    top_at_mark_start cm region = Some tams /\
    offset_to_addr (_mark_bitmap cm) b < tams.

Definition obj_below_tams (cm : G1ConcurrentMark) (obj : Z) : Prop :=
  exists region tams,
    addr_to_region (_g1h cm) obj = Some region /\
    top_at_mark_start cm region = Some tams /\
    obj < tams.

Definition marking_precise (cm : G1ConcurrentMark) : Prop :=
  forall b, b ∈ _bits (_mark_bitmap cm) -> bit_below_tams cm b.

Lemma addr_to_region_Some h addr region :
  addr_to_region h addr = Some region ->
  heap_base h <= addr /\
  region = Z.to_nat ((addr - heap_base h) / GrainBytes h).
Proof.
  unfold addr_to_region. destruct (addr <? heap_base h) eqn:E; [discriminate|].
  apply Z.ltb_ge in E. intros H. inversion H. auto.
Qed.

(** The address of the bit of [obj] is at or below [obj], in the region
    of [obj]. *)
Lemma bit_of_obj cm obj region :
  wf_marking cm ->
  addr_to_region (_g1h cm) obj = Some region ->
  let addr := offset_to_addr (_mark_bitmap cm)
                (addr_to_offset (_mark_bitmap cm) obj) in
  addr <= obj /\ addr_to_region (_g1h cm) addr = Some region.
Proof.
  intros (Hg & Hbase & n & Hn & Hgrain) Hr addr. subst addr.
  apply addr_to_region_Some in Hr as [Hge ->].
  unfold offset_to_addr, addr_to_offset, addr_to_region.
  rewrite Hbase, Hgrain.
  set (g := _granule (_mark_bitmap cm)) in *.
  set (d := obj - heap_base (_g1h cm)).
  assert (0 <= d) as Hd by (subst d; lia).
  pose proof (Z.mul_div_le d g Hg) as Hle.
  assert (0 <= d / g) as Hq by (apply Z.div_pos; lia).
  split; [subst d; lia|].
  assert ((heap_base (_g1h cm) + d / g * g <? heap_base (_g1h cm)) = false) as ->
    by (apply Z.ltb_ge; nia).
  f_equal. f_equal.
  replace (heap_base (_g1h cm) + d / g * g - heap_base (_g1h cm))
    with (d / g * g) by lia.
  rewrite (Z.mul_comm g n), Z.div_mul_cancel_r by lia.
  rewrite (Z.mul_comm n g), <- Z.div_div by lia. reflexivity.
Qed.

(** What [mark_in_bitmap] can do, case by case. *)
Lemma mark_in_bitmap_cases cm worker_id obj res cm' :
  mark_in_bitmap cm worker_id obj = Some (res, cm') ->
  exists region tams,
    addr_to_region (_g1h cm) obj = Some region /\
    top_at_mark_start cm region = Some tams /\
    ((tams <= obj /\ res = false /\ cm' = cm) \/
     (obj < tams /\ is_marked (_mark_bitmap cm) obj = true /\
      res = false /\ cm' = cm) \/
     (obj < tams /\ is_marked (_mark_bitmap cm) obj = false /\
      res = true /\
      cm' = with_mark_bitmap cm
              {| _covered_start := _covered_start (_mark_bitmap cm);
                 _granule := _granule (_mark_bitmap cm);
                 _bits := {[ addr_to_offset (_mark_bitmap cm) obj ]}
                            ∪ _bits (_mark_bitmap cm) |})).
Proof.
  unfold mark_in_bitmap, obj_allocated_since_mark_start.
  destruct (addr_to_region (_g1h cm) obj) as [region|] eqn:Hr; [|discriminate].
  simpl. destruct (top_at_mark_start cm region) as [tams|] eqn:Htams;
    [|discriminate].
  simpl. intros H. exists region, tams. split; [reflexivity|]. split; [exact Htams|].
  destruct (tams <=? obj) eqn:Ht.
  - apply Z.leb_le in Ht. inversion H. auto.
  - apply Z.leb_gt in Ht. unfold par_mark in H.
    destruct (is_marked (_mark_bitmap cm) obj) eqn:Hm; inversion H; subst.
    + right. left. rewrite with_mark_bitmap_same. auto.
    + right. right. auto.
Qed.

(** [mark_in_bitmap] has a result for every object of the heap. *)
Lemma mark_in_bitmap_defined cm worker_id obj region tams :
  addr_to_region (_g1h cm) obj = Some region ->
  top_at_mark_start cm region = Some tams ->
  exists res cm', mark_in_bitmap cm worker_id obj = Some (res, cm').
Proof.
  intros Hr Ht. unfold mark_in_bitmap, obj_allocated_since_mark_start.
  rewrite Hr. simpl. rewrite Ht. simpl.
  destruct (tams <=? obj); [eauto|].
  destruct (par_mark (_mark_bitmap cm) obj) as [success bm]. eauto.
Qed.

Lemma mark_in_bitmap_frame cm worker_id obj res cm' :
  mark_in_bitmap cm worker_id obj = Some (res, cm') ->
  _g1h cm' = _g1h cm /\
  _top_at_mark_starts cm' = _top_at_mark_starts cm /\
  _granule (_mark_bitmap cm') = _granule (_mark_bitmap cm) /\
  _covered_start (_mark_bitmap cm') = _covered_start (_mark_bitmap cm).
Proof.
  intros H. apply mark_in_bitmap_cases in H as (region & tams & _ & _ & Hc).
  destruct Hc as [(_ & _ & ->)|[(_ & _ & _ & ->)|(_ & _ & _ & ->)]]; auto.
Qed.

Lemma mark_in_bitmap_wf cm worker_id obj res cm' :
  mark_in_bitmap cm worker_id obj = Some (res, cm') ->
  wf_marking cm -> wf_marking cm'.
Proof.
  intros H Hwf. apply mark_in_bitmap_frame in H as (Hh & _ & Hg & Hs).
  unfold wf_marking. now rewrite Hh, Hg, Hs.
Qed.

Lemma mark_in_bitmap_new_bits cm worker_id obj res cm' b :
  mark_in_bitmap cm worker_id obj = Some (res, cm') ->
  b ∈ _bits (_mark_bitmap cm') ->
  b ∈ _bits (_mark_bitmap cm) \/
  (b = addr_to_offset (_mark_bitmap cm) obj /\ res = true /\
   obj_below_tams cm obj).
Proof.
  intros H Hb. apply mark_in_bitmap_cases in H as (region & tams & Hr & Ht & Hc).
  destruct Hc as [(_ & _ & ->)|[(_ & _ & _ & ->)|(Hlt & _ & -> & ->)]];
    [now left | now left |].
  simpl in Hb. apply elem_of_union in Hb as [Hb|Hb]; [|now left].
  apply elem_of_singleton in Hb. right.
  split; [exact Hb|]. split; [reflexivity|]. now exists region, tams.
Qed.

Lemma mark_in_bitmap_precise cm worker_id obj res cm' :
  wf_marking cm ->
  mark_in_bitmap cm worker_id obj = Some (res, cm') ->
  marking_precise cm -> marking_precise cm'.
Proof.
  intros Hwf H Hp b Hb.
  pose proof (mark_in_bitmap_frame _ _ _ _ _ H) as (Hh & Htams & Hg & Hs).
  assert (bit_below_tams cm b) as (region & tams & Hr & Ht & Hlt).
  { destruct (mark_in_bitmap_new_bits _ _ _ _ _ _ H Hb)
      as [Hold|(-> & _ & region & tams & Hr & Ht & Hlt)]; [now apply Hp|].
    destruct (bit_of_obj cm obj region Hwf Hr) as [Hle Hr'].
    exists region, tams. split; [exact Hr'|]. split; [exact Ht|]. lia. }
  exists region, tams. unfold bit_below_tams, offset_to_addr, top_at_mark_start in *.
  rewrite Hh, Htams, Hg, Hs. auto.
Qed.

Lemma marking_steps_precise cm cm' :
  wf_marking cm -> marking_precise cm -> marking_steps cm cm' ->
  wf_marking cm' /\ marking_precise cm'.
Proof.
  intros Hwf Hp Hsteps. induction Hsteps as [|cm1 cm2 worker_id obj res _ IH Hmark].
  - auto.
  - destruct IH as [Hwf1 Hp1]. split.
    + eapply mark_in_bitmap_wf; eauto.
    + eapply mark_in_bitmap_precise; eauto.
Qed.

(** C1: marking precision.  A call of [mark_in_bitmap] sets at most the
    bit of its object, and sets it only if the object lies strictly below
    the TAMS of its region; for an object at or above TAMS it returns
    false and changes nothing.  Hence, from a cleared bitmap on, over any
    number of [mark_in_bitmap] calls, every set bit is the bit of an
    address strictly below the TAMS of the region of that address. *)
Theorem marking_precision :
  (forall cm worker_id obj res cm',
     mark_in_bitmap cm worker_id obj = Some (res, cm') ->
     (forall b, b ∈ _bits (_mark_bitmap cm') -> b ∉ _bits (_mark_bitmap cm) ->
        b = addr_to_offset (_mark_bitmap cm) obj /\ obj_below_tams cm obj) /\
     (res = true -> obj_below_tams cm obj) /\
     (forall region tams,
        addr_to_region (_g1h cm) obj = Some region ->
        top_at_mark_start cm region = Some tams ->
        tams <= obj -> res = false /\ cm' = cm)) /\
  (forall cm worker_id obj region tams,
     addr_to_region (_g1h cm) obj = Some region ->
     top_at_mark_start cm region = Some tams ->
     exists res cm', mark_in_bitmap cm worker_id obj = Some (res, cm')) /\
  (forall cm cm',
     wf_marking cm ->
     (_bits (_mark_bitmap cm) = ∅ \/ marking_precise cm) ->
     marking_steps cm cm' ->
     forall b, b ∈ _bits (_mark_bitmap cm') ->
       exists region tams,
         addr_to_region (_g1h cm') (offset_to_addr (_mark_bitmap cm') b)
           = Some region /\
         top_at_mark_start cm' region = Some tams /\
         offset_to_addr (_mark_bitmap cm') b < tams).
Proof.
  split; [|split].
  - intros cm worker_id obj res cm' H. split; [|split].
    + intros b Hb Hnew.
      destruct (mark_in_bitmap_new_bits _ _ _ _ _ _ H Hb) as [Hold|(-> & _ & Ho)];
        [contradiction | auto].
    + intros ->.
      apply mark_in_bitmap_cases in H as (region & tams & Hr & Ht & Hc).
      destruct Hc as [(_ & Hres & _)|[(_ & _ & Hres & _)|(Hlt & _)]];
        try discriminate.
      now exists region, tams.
    + intros region tams Hr Ht Hge.
      apply mark_in_bitmap_cases in H as (region' & tams' & Hr' & Ht' & Hc).
      rewrite Hr in Hr'. inversion Hr'; subst region'.
      rewrite Ht in Ht'. inversion Ht'; subst tams'.
      destruct Hc as [(_ & -> & ->)|[(Hlt & _)|(Hlt & _)]]; [auto | lia | lia].
  - intros cm worker_id obj region tams. apply mark_in_bitmap_defined.
  - intros cm cm' Hwf Hstart Hsteps.
    assert (marking_precise cm) as Hp.
    { destruct Hstart as [Hempty|Hp]; [|exact Hp].
      intros b Hb. rewrite Hempty in Hb. now apply not_elem_of_empty in Hb. }
    exact (proj2 (marking_steps_precise cm cm' Hwf Hp Hsteps)).
Qed.


(** An object of the second region, 80 bytes above its bottom and below
    its TAMS, marked first in the cleared bitmap. *)
Definition marked_cm : G1ConcurrentMark :=
  with_mark_bitmap example_cm
    {| _covered_start := 4096; _granule := 8; _bits := {[ 138 ]} ∪ ∅ |}.

Lemma example_wf : wf_marking example_cm.
Proof.
  unfold wf_marking. simpl. split; [lia|]. split; [reflexivity|].
  exists 128. split; [lia | reflexivity].
Qed.

Lemma marking_precision_witness :
  (mark_in_bitmap example_cm 0 5200 = Some (true, marked_cm) /\
   obj_below_tams example_cm 5200) /\
  (mark_in_bitmap marked_cm 1 5632 = Some (false, marked_cm)) /\
  (forall b, b ∈ _bits (_mark_bitmap marked_cm) ->
     exists region tams,
       addr_to_region (_g1h marked_cm) (offset_to_addr (_mark_bitmap marked_cm) b)
         = Some region /\
       top_at_mark_start marked_cm region = Some tams /\
       offset_to_addr (_mark_bitmap marked_cm) b < tams).
Proof.
  assert (mark_in_bitmap example_cm 0 5200 = Some (true, marked_cm)) as Hmark
    by (vm_compute; reflexivity).
  split; [|split].
  - split; [exact Hmark|].
    exact (proj1 (proj2 (proj1 marking_precision example_cm 0%nat 5200 true
                           marked_cm Hmark)) eq_refl).
  - destruct (proj1 (proj2 marking_precision) marked_cm 1%nat 5632 1%nat 5632
                eq_refl eq_refl) as (res & cm' & Hm).
    destruct (proj2 (proj2 (proj1 marking_precision marked_cm 1%nat 5632 res cm' Hm))
                1%nat 5632 eq_refl eq_refl ltac:(lia)) as [-> ->].
    exact Hm.
  - apply (proj2 (proj2 marking_precision) example_cm marked_cm example_wf).
    + left. reflexivity.
    + eapply marking_step; [apply marking_done | exact Hmark].
Defined.


End G1ConcurrentMarkFacts.


(** ** The marking task: clock periods and the limit check *)

Module G1CMTaskFacts.
Import G1CMTask.

Lemma check_limits_reached (reached_limit : t -> t) (k : t) :
  _words_scanned_limit k <= _words_scanned k \/
  _refs_reached_limit k <= _refs_reached k ->
  check_limits reached_limit k = reached_limit k.
Proof.
  intros H. unfold check_limits.
  destruct (_words_scanned_limit k <=? _words_scanned k) eqn:Hw; [reflexivity|].
  destruct (_refs_reached_limit k <=? _refs_reached k) eqn:Hr; [reflexivity|].
  apply Z.leb_gt in Hw, Hr. lia.
Qed.

Lemma check_limits_not_reached (reached_limit : t -> t) (k : t) :
  _words_scanned k < _words_scanned_limit k ->
  _refs_reached k < _refs_reached_limit k ->
  check_limits reached_limit k = k.
Proof.
  intros Hw Hr. unfold check_limits.
  apply Z.leb_gt in Hw, Hr. now rewrite Hw, Hr.
Qed.



(** A task that has scanned [words] words and reached [refs] references
    against limits of one period above zero. *)
Definition example_task (words refs : Z) : t :=
  {| _words_scanned := words; _words_scanned_limit := 12288;
     _real_words_scanned_limit := 12288;
     _refs_reached := refs; _refs_reached_limit := 1024;
     _real_refs_reached_limit := 1024; _has_aborted := false |}.




End G1CMTaskFacts.

(** ** More on the entry tagging: unaligned words and distinctness *)

Module G1TaskQueueEntryMore.
Import G1TaskQueueEntry.

Lemma lor_one (a : Z) : Z.lor a 1 = a + 1 - a mod 2.
Proof. pose proof (Z.add_lor_land a 1) as H. rewrite land_one in H. lia. Qed.

Lemma lor_one_odd (a : Z) : Z.lor a 1 mod 2 = 1.
Proof.
  rewrite lor_one. pose proof (Z.div_mod a 2 ltac:(lia)) as Hd.
  replace (a + 1 - a mod 2) with (1 + (a / 2) * 2) by lia.
  now rewrite Z.mod_add by lia.
Qed.

Lemma clear_low_bit (a : Z) :
  is_word a -> a mod 2 = 1 -> Z.land a (word_not 1) = a - 1.
Proof.
  intros Hw Ha.
  assert (a <> 0) as Hnz by (intros ->; discriminate).
  assert (is_word (a - 1)) as Hw' by (unfold is_word in *; lia).
  assert ((a - 1) mod 2 = 0) as He.
  { pose proof (Z.div_mod a 2 ltac:(lia)) as Hd.
    replace (a - 1) with (0 + (a / 2) * 2) by lia.
    now rewrite Z.mod_add by lia. }
  pose proof (untag_even (a - 1) Hw' He) as H.
  rewrite lor_one, He in H. now replace (a - 1 + 1 - 0) with a in H by lia.
Qed.

Lemma untag_any (a : Z) :
  is_word a -> Z.land (Z.lor a 1) (word_not 1) = a - a mod 2.
Proof.
  intros Hw. pose proof (Z.mod_pos_bound a 2 ltac:(lia)) as Hb.
  destruct (Z.eq_dec (a mod 2) 0) as [He|Ho].
  - rewrite He, Z.sub_0_r. now apply untag_even.
  - assert (a mod 2 = 1) as H1 by lia. rewrite lor_one, H1.
    replace (a + 1 - 1) with a by lia. now apply clear_low_bit.
Qed.

Lemma from_slice_holder_odd (a : Z) : _holder (from_slice a) mod 2 = 1.
Proof. unfold from_slice, ArraySliceBit. simpl. apply lor_one_odd. Qed.

Lemma from_slice_tagged (a : Z) : is_array_slice (from_slice a) = true.
Proof.
  apply G1TaskQueueEntryFacts.is_array_slice_spec, from_slice_holder_odd.
Qed.

(** X1: [from_slice] tags every word, aligned or not: the entry is an
    array slice, never an oop and never null, and [slice()] returns the
    word with its low bit cleared; an odd address gives the same entry as
    the even address below it. *)
Theorem from_slice_any_word (a : Z) :
  is_word a ->
  is_array_slice (from_slice a) = true /\
  is_oop (from_slice a) = false /\
  is_null (from_slice a) = false /\
  slice (from_slice a) = Some (a - a mod 2) /\
  from_slice a = from_slice (a - a mod 2).
Proof.
  intros Hw. pose proof (from_slice_tagged a) as Hs.
  split; [exact Hs|]. split; [unfold is_oop; now rewrite Hs|]. split; [|split].
  - unfold is_null. apply Z.eqb_neq. intros H0.
    pose proof (from_slice_holder_odd a) as Ho. rewrite H0 in Ho. discriminate.
  - unfold slice. rewrite Hs. unfold from_slice, ArraySliceBit. simpl.
    f_equal. now apply untag_any.
  - unfold from_slice, ArraySliceBit. f_equal. rewrite !lor_one.
    pose proof (Z.div_mod a 2 ltac:(lia)) as Hd.
    assert ((a - a mod 2) mod 2 = 0) as ->.
    { replace (a - a mod 2) with (0 + (a / 2) * 2) by lia.
      now rewrite Z.mod_add by lia. }
    lia.
Qed.

Lemma from_slice_any_word_witness :
  is_array_slice (from_slice 4097) = true /\
  is_oop (from_slice 4097) = false /\
  is_null (from_slice 4097) = false /\
  slice (from_slice 4097) = Some (4097 - 4097 mod 2) /\
  from_slice 4097 = from_slice (4097 - 4097 mod 2).
Proof. apply (from_slice_any_word 4097). word_bounds. lia. Defined.

(** X2: [from_oop] rejects the null oop, and stores any other word as it
    is; the entry reads as an oop exactly when the word is even.  An odd
    word is read as an array slice: [obj()] fails its assertion and
    [slice()] gives the word below it. *)
Theorem from_oop_classification (o : Z) :
  is_word o ->
  (o = 0 -> from_oop o = None) /\
  (o <> 0 ->
     from_oop o = Some (mk o) /\
     (is_oop (mk o) = true <-> o mod 2 = 0) /\
     (o mod 2 = 0 -> obj (mk o) = Some o /\ slice (mk o) = None) /\
     (o mod 2 = 1 ->
        is_array_slice (mk o) = true /\ obj (mk o) = None /\
        slice (mk o) = Some (o - 1))).
Proof.
  intros Hw. split.
  - intros ->. reflexivity.
  - intros Hnz. unfold from_oop.
    assert ((o =? 0) = false) as -> by (now apply Z.eqb_neq).
    split; [reflexivity|].
    pose proof (G1TaskQueueEntryFacts.is_array_slice_spec (mk o)) as Hspec.
    simpl in Hspec. pose proof (Z.mod_pos_bound o 2 ltac:(lia)) as Hb.
    split; [|split].
    + unfold is_oop. destruct (is_array_slice (mk o)) eqn:E; simpl.
      * assert (o mod 2 = 1) by (now apply Hspec). split; [discriminate | lia].
      * split; [intros _|reflexivity].
        destruct (Z.eq_dec (o mod 2) 0) as [H0|H1]; [exact H0|].
        assert (o mod 2 = 1) as H by lia. apply Hspec in H. discriminate.
    + intros He. unfold obj, slice.
      now rewrite (G1TaskQueueEntryFacts.aligned_not_array_slice o He).
    + intros Ho. assert (is_array_slice (mk o) = true) as Hs by (now apply Hspec).
      unfold obj, slice. rewrite Hs. simpl. repeat split.
      f_equal. now apply clear_low_bit.
Qed.

Lemma from_oop_classification_witness :
  from_oop 4105 = Some (mk 4105) /\
  is_array_slice (mk 4105) = true /\ obj (mk 4105) = None /\
  slice (mk 4105) = Some (4105 - 1).
Proof.
  assert (is_word 4105) as Hw by (word_bounds; lia).
  destruct (proj2 (from_oop_classification 4105 Hw) ltac:(lia))
    as (Hf & _ & _ & Hodd).
  split; [exact Hf|]. apply Hodd. reflexivity.
Defined.

(** X3: entries decode without ambiguity.  Neither constructor yields the
    null entry that terminates a partly filled chunk; a slice entry and the
    entry of an aligned oop are never equal; and both constructors are
    injective on aligned words. *)
Theorem entries_are_distinct :
  (forall a, from_slice a <> empty) /\
  (forall o e, from_oop o = Some e -> e <> empty) /\
  (forall a o e, o mod 2 = 0 -> from_oop o = Some e -> e <> from_slice a) /\
  (forall a b, a mod 2 = 0 -> b mod 2 = 0 ->
     from_slice a = from_slice b -> a = b) /\
  (forall o1 o2 e, from_oop o1 = Some e -> from_oop o2 = Some e -> o1 = o2).
Proof.
  split; [|split; [|split; [|split]]].
  - intros a H. pose proof (from_slice_holder_odd a) as Ho.
    rewrite H in Ho. discriminate.
  - intros o e H. unfold from_oop in H.
    destruct (o =? 0) eqn:E; [discriminate|]. apply Z.eqb_neq in E.
    inversion H. unfold empty. intros Heq. inversion Heq. contradiction.
  - intros a o e He H. unfold from_oop in H.
    destruct (o =? 0); [discriminate|]. inversion H. subst e. intros Heq.
    pose proof (from_slice_holder_odd a) as Ho. rewrite <- Heq in Ho.
    simpl in Ho. lia.
  - intros a b Ha Hb H. unfold from_slice, ArraySliceBit in H. inversion H as [Hl].
    rewrite !lor_one, Ha, Hb in Hl. lia.
  - intros o1 o2 e H1 H2. unfold from_oop in *.
    destruct (o1 =? 0); [discriminate|]. destruct (o2 =? 0); [discriminate|].
    inversion H1. inversion H2. subst e. now inversion H3.
Qed.

Lemma entries_are_distinct_witness :
  (exists e, from_oop 4104 = Some e /\ e <> empty /\ e <> from_slice 4104) /\
  (from_slice 4096 = from_slice 4096 -> 4096 = 4096).
Proof.
  split.
  - exists (mk 4104). split; [reflexivity|]. split.
    + apply (proj1 (proj2 entries_are_distinct) 4104). reflexivity.
    + apply (proj1 (proj2 (proj2 entries_are_distinct)) 4104 4104);
        reflexivity.
  - apply (proj1 (proj2 (proj2 (proj2 entries_are_distinct))) 4096 4096);
      reflexivity.
Defined.

End G1TaskQueueEntryMore.

(** ** More on the bucketed allocator: slots, order and doubling *)

Module G1CMMarkStackMore.
Import G1CMMarkStack.
Import G1CMMarkStackFacts.

(** The chunks that the first [n] buckets hold together. *)
Fixpoint reserved_chunks (a : ChunkAllocator) (n : nat) : Z :=
  match n with
  | O => 0
  | S n' => reserved_chunks a n' + bucket_size a (Z.of_nat n')
  end.

Lemma get_bucket_nonneg (a : ChunkAllocator) (j idx : Z) :
  0 <= j < BitsPerWord -> _min_capacity a = 2 ^ j -> is_word idx ->
  0 <= get_bucket a idx.
Proof.
  intros Hj Hm Hw.
  destruct (Z_lt_le_dec idx (_min_capacity a)) as [Hlt|Hge].
  - destruct (below_min a idx Hlt) as [-> _]. lia.
  - destruct (above_min a j Hj Hm idx Hge Hw) as [-> _].
    pose proof (log2_above_min a j Hj Hm idx Hge Hw). lia.
Qed.

(** X4: two different logical indices are never placed in the same slot:
    they differ in the bucket or in the offset. *)
Theorem bucket_slots_injective (a : ChunkAllocator) (j idx1 idx2 : Z) :
  0 <= j < BitsPerWord -> _min_capacity a = 2 ^ j ->
  is_word idx1 -> is_word idx2 ->
  idx1 <> idx2 ->
  (get_bucket a idx1, get_bucket_index a idx1)
    <> (get_bucket a idx2, get_bucket_index a idx2).
Proof.
  intros Hj Hm Hw1 Hw2 Hne Heq. inversion Heq as [[Hb Ho]]. apply Hne.
  destruct (offset_in_bucket a j Hj Hm idx1 Hw1) as [H1 _].
  destruct (offset_in_bucket a j Hj Hm idx2 Hw2) as [H2 _].
  rewrite H1, H2, Hb, Ho. reflexivity.
Qed.

Lemma bucket_slots_injective_witness :
  (get_bucket example_allocator 9, get_bucket_index example_allocator 9)
    <> (get_bucket example_allocator 13, get_bucket_index example_allocator 13).
Proof.
  apply (bucket_slots_injective example_allocator 2 9 13);
    try (word_bounds; lia); reflexivity.
Defined.

(** X5: every slot of every bucket is the place of a logical index: the
    index [bucket_first m k + offset] of a slot [offset] of bucket [k] is
    found again in bucket [k] at [offset]. *)
Theorem bucket_slot_round_trip (a : ChunkAllocator) (j k offset : Z) :
  0 <= j < BitsPerWord -> _min_capacity a = 2 ^ j ->
  0 <= k -> j + k <= BitsPerWord ->
  0 <= offset < bucket_size a k ->
  let idx := bucket_first (_min_capacity a) k + offset in
  is_word idx /\ get_bucket a idx = k /\ get_bucket_index a idx = offset.
Proof.
  intros Hj Hm Hk Hfit Hoff idx. subst idx.
  pose proof (min_capacity_pos a j Hj Hm) as Hpos.
  destruct (Z.eq_dec k 0) as [->|Hne].
  - unfold bucket_size, bucket_first in *. simpl in *.
    assert (is_word (2 ^ j)) as Hmw by (now apply pow2_word).
    rewrite <- Hm in Hmw.
    split; [unfold is_word in *; lia|]. apply below_min. lia.
  - assert (1 <= k) as Hk1 by lia.
    rewrite (bucket_size_of_bucket a j Hj Hm k Hk1) in Hoff by lia.
    destruct (interval_of_bucket a j Hj Hm k Hk1) as [Hf Hl].
    set (idx := bucket_first (_min_capacity a) k + offset).
    assert (2 ^ (j + k) = 2 * 2 ^ (j + k - 1)) as Hdouble.
    { replace (j + k) with (1 + (j + k - 1)) at 1 by lia.
      rewrite Z.pow_add_r by lia. reflexivity. }
    assert (2 ^ (j + k - 1) <= idx < 2 ^ (j + k)) as Hin
      by (subst idx; rewrite Hf; lia).
    assert (2 ^ (j + k) <= 2 ^ BitsPerWord) as Htop
      by (apply Z.pow_le_mono_r; lia).
    assert (0 < 2 ^ (j + k - 1)) by (apply Z.pow_pos_nonneg; lia).
    assert (is_word idx) as Hw by (unfold is_word, word_modulus; lia).
    assert (2 ^ j <= 2 ^ (j + k - 1)) by (apply Z.pow_le_mono_r; lia).
    split; [exact Hw|]. split.
    + apply (bucket_of_interval a j Hj Hm); [exact Hw | lia |].
      rewrite Hf, Hl. exact Hin.
    + destruct (above_min a j Hj Hm idx) as [_ ->]; [lia | exact Hw |].
      assert (Z.log2 idx = j + k - 1) as ->.
      { apply Z.log2_unique; [lia|].
        now replace (Z.succ (j + k - 1)) with (j + k) by lia. }
      subst idx. rewrite Hf. lia.
Qed.

Lemma bucket_slot_round_trip_witness :
  is_word (bucket_first 4 2 + 5) /\
  get_bucket example_allocator (bucket_first 4 2 + 5) = 2 /\
  get_bucket_index example_allocator (bucket_first 4 2 + 5) = 5.
Proof.
  apply (bucket_slot_round_trip example_allocator 2 2 5).
  - word_bounds. lia.
  - reflexivity.
  - lia.
  - word_bounds. lia.
  - split; [lia | reflexivity].
Defined.

Lemma reserved_chunks_limit (a : ChunkAllocator) (j : Z) (n : nat) :
  0 <= j < BitsPerWord -> _min_capacity a = 2 ^ j ->
  j + Z.of_nat n < BitsPerWord ->
  reserved_chunks a (S n) = _min_capacity a * 2 ^ Z.of_nat n.
Proof.
  intros Hj Hm. induction n as [|n IH]; intros Hfit.
  - simpl. unfold bucket_size. simpl. lia.
  - change (reserved_chunks a (S (S n)))
      with (reserved_chunks a (S n) + bucket_size a (Z.of_nat (S n))).
    rewrite IH by lia.
    rewrite (bucket_size_of_bucket a j Hj Hm) by lia.
    replace (j + Z.of_nat (S n) - 1) with (j + Z.of_nat n) by lia.
    replace (Z.of_nat (S n)) with (Z.of_nat n + 1) by lia.
    rewrite Hm, !Z.pow_add_r, Z.pow_1_r by lia. ring.
Qed.

(** X6: each bucket added doubles the array.  The buckets [0..n] hold
    [m * 2^n] chunks together, the bucket after them is as large as all of
    them, and with it the array is twice as large. *)
Theorem buckets_double_capacity (a : ChunkAllocator) (j : Z) (n : nat) :
  0 <= j < BitsPerWord -> _min_capacity a = 2 ^ j ->
  j + Z.of_nat n + 1 < BitsPerWord ->
  reserved_chunks a (S n) = _min_capacity a * 2 ^ Z.of_nat n /\
  bucket_size a (Z.of_nat n + 1) = reserved_chunks a (S n) /\
  reserved_chunks a (S (S n)) = 2 * reserved_chunks a (S n).
Proof.
  intros Hj Hm Hfit.
  pose proof (reserved_chunks_limit a j n Hj Hm ltac:(lia)) as Hn.
  split; [exact Hn|].
  assert (bucket_size a (Z.of_nat n + 1) = reserved_chunks a (S n)) as Hb.
  { rewrite Hn, (bucket_size_of_bucket a j Hj Hm) by lia.
    replace (j + (Z.of_nat n + 1) - 1) with (j + Z.of_nat n) by lia.
    rewrite Hm, Z.pow_add_r by lia. reflexivity. }
  split; [exact Hb|].
  change (reserved_chunks a (S (S n)))
    with (reserved_chunks a (S n) + bucket_size a (Z.of_nat (S n))).
  replace (Z.of_nat (S n)) with (Z.of_nat n + 1) by lia.
  rewrite Hb. lia.
Qed.

Lemma buckets_double_capacity_witness :
  reserved_chunks example_allocator 3 = _min_capacity example_allocator * 2 ^ 2 /\
  bucket_size example_allocator 3 = reserved_chunks example_allocator 3 /\
  reserved_chunks example_allocator 4 = 2 * reserved_chunks example_allocator 3.
Proof.
  apply (buckets_double_capacity example_allocator 2 2);
    try (word_bounds; lia); reflexivity.
Defined.

(** X7: the placement keeps the order of the indices: a larger index is
    in the same or a later bucket, and within a bucket at a larger
    offset. *)
Theorem bucket_order (a : ChunkAllocator) (j idx1 idx2 : Z) :
  0 <= j < BitsPerWord -> _min_capacity a = 2 ^ j ->
  is_word idx1 -> is_word idx2 -> idx1 < idx2 ->
  get_bucket a idx1 <= get_bucket a idx2 /\
  (get_bucket a idx1 = get_bucket a idx2 ->
   get_bucket_index a idx1 < get_bucket_index a idx2).
Proof.
  intros Hj Hm Hw1 Hw2 Hlt.
  pose proof (get_bucket_nonneg a j idx2 Hj Hm Hw2) as Hnn.
  split.
  - destruct (Z_lt_le_dec idx1 (_min_capacity a)) as [H1|H1].
    + destruct (below_min a idx1 H1) as [-> _]. exact Hnn.
    + destruct (above_min a j Hj Hm idx1 H1 Hw1) as [-> _].
      destruct (above_min a j Hj Hm idx2 ltac:(lia) Hw2) as [-> _].
      pose proof (Z.log2_le_mono idx1 idx2 ltac:(lia)). lia.
  - intros Hb.
    destruct (offset_in_bucket a j Hj Hm idx1 Hw1) as [E1 _].
    destruct (offset_in_bucket a j Hj Hm idx2 Hw2) as [E2 _].
    rewrite Hb in E1. lia.
Qed.

Lemma bucket_order_witness :
  get_bucket example_allocator 7 <= get_bucket example_allocator 8 /\
  (get_bucket example_allocator 7 = get_bucket example_allocator 8 ->
   get_bucket_index example_allocator 7 < get_bucket_index example_allocator 8).
Proof.
  apply (bucket_order example_allocator 2 7 8);
    try (word_bounds; lia); reflexivity.
Defined.

Lemma above_any_min (a : ChunkAllocator) (idx : Z) :
  0 < _min_capacity a -> is_word (_min_capacity a) ->
  _min_capacity a <= idx -> is_word idx ->
  get_bucket a idx = Z.log2 idx - Z.log2 (_min_capacity a) + 1 /\
  get_bucket_index a idx = idx - 2 ^ Z.log2 idx.
Proof.
  intros Hpos Hmw Hge Hw.
  assert (0 < idx) as Hipos by lia.
  pose proof (log2_word idx Hipos Hw) as Hl.
  pose proof (log2_word _ Hpos Hmw) as Hlm.
  pose proof (Z.log2_le_mono _ _ Hge) as Hmono.
  unfold get_bucket, get_bucket_index.
  assert ((idx <? _min_capacity a) = false) as -> by (apply Z.ltb_ge; lia).
  rewrite (find_highest_bit_log2 idx Hipos Hw).
  rewrite (find_highest_bit_log2 _ Hpos Hmw).
  pose proof (pow2_bounds idx Hipos) as Hb.
  split.
  - apply wrap_uint_small. unfold BitsPerWord in *. lia.
  - rewrite Z.shiftl_1_l.
    rewrite (wrap_word_small (2 ^ Z.log2 idx)) by (apply pow2_word; lia).
    apply wrap_word_small. unfold is_word in *. lia.
Qed.

(** X8: the lookup never leaves its bucket, whatever the minimum
    capacity: for every non-zero minimum capacity, a power of two or not,
    the offset of an index is below the size of the bucket of that
    index. *)
Theorem offset_within_bucket (a : ChunkAllocator) (idx : Z) :
  0 < _min_capacity a -> is_word (_min_capacity a) -> is_word idx ->
  0 <= get_bucket_index a idx < bucket_size a (get_bucket a idx).
Proof.
  intros Hpos Hmw Hw.
  destruct (Z_lt_le_dec idx (_min_capacity a)) as [Hlt|Hge].
  - destruct (below_min a idx Hlt) as [-> ->]. unfold bucket_size. simpl.
    unfold is_word in Hw. lia.
  - destruct (above_any_min a idx Hpos Hmw Hge Hw) as [-> ->].
    assert (0 < idx) as Hipos by lia.
    pose proof (log2_word idx Hipos Hw) as Hl.
    pose proof (log2_word _ Hpos Hmw) as Hlm.
    pose proof (Z.log2_le_mono _ _ Hge) as Hmono.
    pose proof (pow2_bounds idx Hipos) as Hb.
    pose proof (pow2_bounds _ Hpos) as Hbm.
    set (h := Z.log2 idx) in *. set (hm := Z.log2 (_min_capacity a)) in *.
    unfold bucket_size.
    assert ((h - hm + 1 =? 0) = false) as -> by (apply Z.eqb_neq; lia).
    replace (h - hm + 1 - 1) with (h - hm) by lia.
    rewrite Z.shiftl_1_l.
    rewrite (wrap_word_small (2 ^ (h - hm))) by (apply pow2_word; lia).
    assert (0 < 2 ^ (h - hm)) as Hp by (apply Z.pow_pos_nonneg; lia).
    assert (2 ^ hm * 2 ^ (h - hm) = 2 ^ h) as Hlow
      by (rewrite <- Z.pow_add_r by lia; f_equal; lia).
    assert (2 ^ (hm + 1) * 2 ^ (h - hm) = 2 ^ (h + 1)) as Hhigh
      by (rewrite <- Z.pow_add_r by lia; f_equal; lia).
    assert (2 ^ (h + 1) <= 2 ^ BitsPerWord) as Htop
      by (apply Z.pow_le_mono_r; lia).
    assert (2 ^ (h + 1) = 2 * 2 ^ h) as Hdouble
      by (rewrite Z.pow_add_r, Z.pow_1_r by lia; lia).
    assert (2 ^ h <= _min_capacity a * 2 ^ (h - hm) < 2 ^ (h + 1)) as Hprod
      by nia.
    rewrite wrap_word_small by (unfold is_word, word_modulus; lia).
    lia.
Qed.

Definition odd_allocator : ChunkAllocator :=
  {| _min_capacity := 5; _max_capacity := 40; _capacity := 5;
     _num_buckets := 4; _should_grow := false;
     _buckets := [true; false; false; false]; _size := 0 |}.

Lemma offset_within_bucket_witness :
  0 <= get_bucket_index odd_allocator 7
    < bucket_size odd_allocator (get_bucket odd_allocator 7).
Proof.
  apply (offset_within_bucket odd_allocator 7); word_bounds; lia.
Defined.

(** X9: [find_highest_bit] of a non-zero word is the position of its
    highest set bit: that bit is set, no bit above it is, and the word
    lies between the power of two at that position and the next. *)
Theorem find_highest_bit_top (x : Z) :
  0 < x -> is_word x ->
  0 <= find_highest_bit x < BitsPerWord /\
  2 ^ find_highest_bit x <= x < 2 ^ (find_highest_bit x + 1) /\
  Z.testbit x (find_highest_bit x) = true /\
  (forall n, find_highest_bit x < n -> Z.testbit x n = false).
Proof.
  intros Hpos Hw. rewrite (find_highest_bit_log2 x Hpos Hw).
  split; [now apply log2_word|]. split; [now apply pow2_bounds|]. split.
  - apply Z.bit_log2. exact Hpos.
  - intros n Hn. apply Z.bits_above_log2; lia.
Qed.

Lemma find_highest_bit_top_witness :
  0 <= find_highest_bit 1000 < BitsPerWord /\
  2 ^ find_highest_bit 1000 <= 1000 < 2 ^ (find_highest_bit 1000 + 1) /\
  Z.testbit 1000 (find_highest_bit 1000) = true /\
  (forall n, find_highest_bit 1000 < n -> Z.testbit 1000 n = false).
Proof. apply (find_highest_bit_top 1000); word_bounds; lia. Defined.

End G1CMMarkStackMore.

(** ** More on the coordinator: live bytes in detail, the overflow flag *)

Module G1ConcurrentMarkMore.
Import G1ConcurrentMarkFacts.

Lemma words_of_bytes (b : Z) :
  is_word b ->
  wrap_word (b / HeapWordSize * HeapWordSize) = b - b mod HeapWordSize /\
  (b / HeapWordSize =? 0) = negb (HeapWordSize <=? b).
Proof.
  intros Hw. unfold HeapWordSize.
  pose proof (Z.div_mod b 8 ltac:(lia)) as Hd.
  pose proof (Z.mod_pos_bound b 8 ltac:(lia)) as Hm.
  split.
  - rewrite wrap_word_small; unfold is_word in *; lia.
  - destruct (8 <=? b) eqn:E; simpl.
    + apply Z.leb_le in E. apply Z.eqb_neq. unfold is_word in *. lia.
    + apply Z.leb_gt in E. apply Z.eqb_eq. unfold is_word in *. lia.
Qed.

(** X10: [set_live_bytes] stores whole words only.  After
    [set_live_bytes(region, b)], [live_bytes(region)] is [b] rounded down
    to a multiple of the word size, the region counts as containing a
    live object exactly when [b] is at least one word, and its incoming
    references are as before. *)
Theorem set_live_bytes_rounds_down (cm : G1ConcurrentMark) (region : nat)
  (b : Z) :
  (region < length (_region_mark_stats cm))%nat -> is_word b ->
  exists cm',
    set_live_bytes cm region b = Some cm' /\
    live_bytes cm' region = Some (b - b mod HeapWordSize) /\
    contains_live_object cm' region = Some (HeapWordSize <=? b) /\
    incoming_refs cm' region = incoming_refs cm region.
Proof.
  intros Hr Hw. destruct (lookup_lt_is_Some_2 _ _ Hr) as [st Hst].
  destruct (words_of_bytes b Hw) as [Hround Hzero].
  unfold set_live_bytes. rewrite Hst. simpl. eexists. split; [reflexivity|].
  unfold live_bytes, contains_live_object, incoming_refs. simpl.
  rewrite list_lookup_insert_eq by exact Hr. rewrite Hst. simpl.
  rewrite Hround, Hzero, negb_involutive. auto.
Qed.

Lemma set_live_bytes_rounds_down_witness :
  exists cm',
    set_live_bytes example_cm 1 7 = Some cm' /\
    live_bytes cm' 1 = Some (7 - 7 mod HeapWordSize) /\
    contains_live_object cm' 1 = Some (HeapWordSize <=? 7) /\
    incoming_refs cm' 1 = incoming_refs example_cm 1.
Proof.
  apply (set_live_bytes_rounds_down example_cm 1%nat 7).
  - simpl. lia.
  - word_bounds. lia.
Defined.

(** X11: [set_live_bytes] touches the live words of its region and
    nothing else: every other region reads as before, and so do the
    finger, the overflow flag, the bitmap, the TAMS table and the mark
    stack. *)
Theorem set_live_bytes_frame (cm cm' : G1ConcurrentMark) (region : nat)
  (b : Z) :
  set_live_bytes cm region b = Some cm' ->
  (forall r, r <> region ->
     live_bytes cm' r = live_bytes cm r /\
     contains_live_object cm' r = contains_live_object cm r /\
     incoming_refs cm' r = incoming_refs cm r) /\
  length (_region_mark_stats cm') = length (_region_mark_stats cm) /\
  _finger cm' = _finger cm /\
  _has_overflown cm' = _has_overflown cm /\
  _mark_bitmap cm' = _mark_bitmap cm /\
  _top_at_mark_starts cm' = _top_at_mark_starts cm /\
  _global_mark_stack cm' = _global_mark_stack cm.
Proof.
  unfold set_live_bytes.
  destruct (_region_mark_stats cm !! region) as [st|] eqn:Hst; [|discriminate].
  simpl. intros H. inversion H. subst cm'. clear H.
  split.
  - intros r Hne. unfold live_bytes, contains_live_object, incoming_refs. simpl.
    rewrite list_lookup_insert_ne by congruence. auto.
  - simpl. rewrite length_insert. repeat split.
Qed.

Lemma set_live_bytes_frame_witness :
  exists cm', set_live_bytes example_cm 1 4096 = Some cm' /\
    live_bytes cm' 2 = live_bytes example_cm 2 /\
    _has_overflown cm' = _has_overflown example_cm.
Proof.
  eexists. split; [reflexivity|].
  destruct (set_live_bytes_frame example_cm _ 1%nat 4096 eq_refl)
    as (Hother & _ & _ & Hflag & _).
  split; [apply (Hother 2%nat); lia | exact Hflag].
Defined.

(** X12: the two readings of the live words agree: as long as the byte
    count fits a word, a region contains a live object exactly when its
    live bytes are not zero. *)
Theorem contains_live_object_live_bytes (cm : G1ConcurrentMark)
  (region : nat) (st : G1RegionMarkStats) :
  _region_mark_stats cm !! region = Some st ->
  is_word (_live_words st * HeapWordSize) ->
  contains_live_object cm region
    = (fun n => negb (n =? 0)) <$> live_bytes cm region.
Proof.
  intros Hst Hw. unfold contains_live_object, live_bytes. rewrite Hst. simpl.
  rewrite wrap_word_small by exact Hw. f_equal. f_equal.
  unfold HeapWordSize in *.
  destruct (_live_words st =? 0) eqn:E.
  - apply Z.eqb_eq in E. rewrite E. reflexivity.
  - apply Z.eqb_neq in E. symmetry. apply Z.eqb_neq. lia.
Qed.

Lemma contains_live_object_live_bytes_witness :
  contains_live_object example_cm 0
    = (fun n => negb (n =? 0)) <$> live_bytes example_cm 0 /\
  contains_live_object example_cm 1
    = (fun n => negb (n =? 0)) <$> live_bytes example_cm 1.
Proof.
  split.
  - apply (contains_live_object_live_bytes example_cm 0%nat
             {| _live_words := 0; _incoming_refs := 0 |}); [reflexivity|].
    word_bounds. lia.
  - apply (contains_live_object_live_bytes example_cm 1%nat
             {| _live_words := 24; _incoming_refs := 3 |}); [reflexivity|].
    word_bounds. lia.
Defined.

(** *** The overflow flag over a series of transfers *)

Section OverflowFlag.

Variable par_push_chunk :
  G1CMMarkStack.t -> G1CMMarkStack.Buffer -> bool * G1CMMarkStack.t.
Variable par_pop_chunk :
  G1CMMarkStack.t -> G1CMMarkStack.Buffer ->
  bool * G1CMMarkStack.t * G1CMMarkStack.Buffer.

Lemma transfer_step_flag (tr : transfer) (cm : G1ConcurrentMark) :
  let r := transfer_step par_push_chunk par_pop_chunk tr cm in
  _has_overflown (snd r) =
    _has_overflown cm || push_failed [tr] [fst r] /\
  _finger (snd r) = _finger cm /\
  _mark_bitmap (snd r) = _mark_bitmap cm /\
  _region_mark_stats (snd r) = _region_mark_stats cm.
Proof.
  destruct tr as [arr|arr]; simpl.
  - unfold mark_stack_push.
    destruct (par_push_chunk (_global_mark_stack cm) arr) as [[|] s]; simpl.
    + rewrite orb_false_r. auto.
    + rewrite orb_true_r. auto.
  - unfold mark_stack_pop.
    destruct (par_pop_chunk (_global_mark_stack cm) arr) as [[popped s] arr1].
    simpl. rewrite orb_false_r. auto.
Qed.

(** X13: the overflow flag is sticky over transfers.  After any series
    of pushes and pops the flag is set exactly when it was set before or
    one of the pushes failed; a failed pop never sets it and nothing in
    the series clears it.  The finger, the bitmap and the region
    statistics are as before, and every transfer has its result. *)
Theorem overflow_flag_after_transfers (trs : list transfer)
  (cm : G1ConcurrentMark) :
  let r := run_transfers par_push_chunk par_pop_chunk trs cm in
  _has_overflown (snd r) = _has_overflown cm || push_failed trs (fst r) /\
  length (fst r) = length trs /\
  _finger (snd r) = _finger cm /\
  _mark_bitmap (snd r) = _mark_bitmap cm /\
  _region_mark_stats (snd r) = _region_mark_stats cm.
Proof.
  revert cm. induction trs as [|tr trs IH]; intros cm.
  - simpl. rewrite orb_false_r. auto.
  - simpl.
    pose proof (transfer_step_flag tr cm) as Hstep. simpl in Hstep.
    destruct (transfer_step par_push_chunk par_pop_chunk tr cm) as [ok cm1].
    specialize (IH cm1). simpl in IH.
    destruct (run_transfers par_push_chunk par_pop_chunk trs cm1) as [oks cm2].
    simpl in *.
    destruct Hstep as (Hf1 & Hg1 & Hb1 & Hs1).
    destruct IH as (Hf2 & Hlen & Hg2 & Hb2 & Hs2).
    rewrite Hf2, Hg2, Hb2, Hs2, Hf1, Hg1, Hb1, Hs1, Hlen.
    repeat split.
    destruct tr; destruct (_has_overflown cm), ok, (push_failed trs oks);
      reflexivity.
Qed.

End OverflowFlag.

End G1ConcurrentMarkMore.

(** ** More on the marking task: the clock and the local finger *)

Module G1CMTaskMore.
Import G1CMTask.
Import G1CMTaskFacts.

Lemma iter_increment_refs_reached (k : t) (n : nat) :
  0 <= _refs_reached k ->
  is_word (_refs_reached k + Z.of_nat n) ->
  let k' := Nat.iter n increment_refs_reached k in
  _refs_reached k' = _refs_reached k + Z.of_nat n /\
  _refs_reached_limit k' = _refs_reached_limit k /\
  _words_scanned k' = _words_scanned k /\
  _words_scanned_limit k' = _words_scanned_limit k.
Proof.
  intros Hpos. induction n as [|n IH]; intros Hw.
  - simpl. repeat split. lia.
  - assert (is_word (_refs_reached k + Z.of_nat n)) as Hw'
      by (unfold is_word in *; lia).
    destruct (IH Hw') as (Hr & Hl & Hs & Hsl).
    simpl. rewrite Hr, Hl, Hs, Hsl. repeat split.
    replace (_refs_reached k + Z.of_nat n + 1)
      with (_refs_reached k + Z.of_nat (S n)) by lia.
    now apply wrap_word_small.
Qed.

(** X14: counting references one by one, the clock is due on the
    reference that makes the count reach the limit and not before: after
    [n] calls of [increment_refs_reached], with the words scanned still
    below their limit, [check_limits] calls [reached_limit] exactly when
    the [n] references have taken the count to the limit. *)
Theorem clock_due_at_limit (reached_limit : t -> t) (k : t) (n : nat) :
  0 <= _refs_reached k ->
  is_word (_refs_reached k + Z.of_nat n) ->
  _words_scanned k < _words_scanned_limit k ->
  let k' := Nat.iter n increment_refs_reached k in
  _refs_reached k' = _refs_reached k + Z.of_nat n /\
  (_refs_reached_limit k <= _refs_reached k + Z.of_nat n ->
   check_limits reached_limit k' = reached_limit k') /\
  (_refs_reached k + Z.of_nat n < _refs_reached_limit k ->
   check_limits reached_limit k' = k').
Proof.
  intros Hpos Hw Hwords k'.
  destruct (iter_increment_refs_reached k n Hpos Hw) as (Hr & Hl & Hs & Hsl).
  fold k' in Hr, Hl, Hs, Hsl.
  split; [exact Hr|]. split.
  - intros Hdue. apply check_limits_reached. right. rewrite Hl, Hr. exact Hdue.
  - intros Hnot. apply check_limits_not_reached.
    + rewrite Hs, Hsl. exact Hwords.
    + rewrite Hl, Hr. exact Hnot.
Qed.

Lemma clock_due_at_limit_witness :
  has_aborted
    (check_limits set_has_aborted
       (Nat.iter 4 increment_refs_reached (example_task 100 1020))) = true /\
  has_aborted
    (check_limits set_has_aborted
       (Nat.iter 3 increment_refs_reached (example_task 100 1020))) = false.
Proof.
  assert (0 <= _refs_reached (example_task 100 1020)) as Hpos by (simpl; lia).
  assert (_words_scanned (example_task 100 1020)
          < _words_scanned_limit (example_task 100 1020)) as Hwords
    by (simpl; lia).
  split.
  - destruct (clock_due_at_limit set_has_aborted (example_task 100 1020) 4
                Hpos ltac:(word_bounds; lia) Hwords) as (_ & Hdue & _).
    rewrite Hdue; [reflexivity | simpl; lia].
  - destruct (clock_due_at_limit set_has_aborted (example_task 100 1020) 3
                Hpos ltac:(word_bounds; lia) Hwords) as (_ & _ & Hnot).
    rewrite Hnot; [reflexivity | simpl; lia].
Defined.

End G1CMTaskMore.

Module G1CMTaskFingerFacts.
Import G1CMTaskFinger.

Lemma move_finger_to_Some (k k1 : t) (f : Z) :
  move_finger_to k f = Some k1 ->
  _finger k <= f < _region_limit k /\
  _finger k1 = f /\ _region_limit k1 = _region_limit k.
Proof.
  unfold move_finger_to.
  destruct ((_finger k <=? f) && (f <? _region_limit k)) eqn:E; [|discriminate].
  apply andb_true_iff in E as [H1 H2].
  apply Z.leb_le in H1. apply Z.ltb_lt in H2.
  intros H. inversion H. simpl. auto.
Qed.

(** X15: the local finger only moves forward and stays inside its
    region.  When every [move_finger_to] of a series passes its
    assertion, the region limit is as before, the finger is at or above
    where it started and, once moved, strictly below the region limit,
    and the addresses it was moved to were given in ascending order. *)
Theorem local_finger_moves_forward (k k' : t) (fingers : list Z) :
  move_finger_through k fingers = Some k' ->
  _region_limit k' = _region_limit k /\
  _finger k <= _finger k' /\
  (fingers <> [] -> _finger k' < _region_limit k') /\
  Forall (fun f => _finger k <= f <= _finger k') fingers /\
  Sorted Z.le fingers.
Proof.
  revert k. induction fingers as [|f fingers IH]; intros k H.
  - simpl in H. inversion H. subst k'.
    split; [reflexivity|]. split; [lia|]. split; [congruence|].
    split; constructor.
  - simpl in H. destruct (move_finger_to k f) as [k1|] eqn:Hm; [|discriminate].
    simpl in H. apply move_finger_to_Some in Hm as (Hin & Hf1 & Hl1).
    destruct (IH k1 H) as (Hlim & Hle & Hbelow & Hall & Hsorted).
    rewrite Hl1 in Hlim. rewrite Hf1 in Hle, Hall.
    split; [exact Hlim|]. split; [lia|]. split; [|split].
    + intros _. destruct fingers as [|f' fingers'].
      * simpl in H. inversion H. subst k'. rewrite Hf1, Hl1. lia.
      * apply Hbelow. congruence.
    + constructor; [lia|].
      eapply Forall_impl; [exact Hall|]. simpl. intros x Hx. lia.
    + constructor; [exact Hsorted|].
      destruct fingers as [|f' fingers']; constructor.
      inversion Hall as [|? ? Hf' _]. lia.
Qed.

Lemma local_finger_moves_forward_witness :
  move_finger_through {| _finger := 5120; _region_limit := 5632 |}
    [5120; 5200; 5624]
    = Some {| _finger := 5624; _region_limit := 5632 |} /\
  Sorted Z.le [5120; 5200; 5624] /\
  move_finger_to {| _finger := 5624; _region_limit := 5632 |} 5632 = None.
Proof.
  assert (move_finger_through {| _finger := 5120; _region_limit := 5632 |}
            [5120; 5200; 5624]
          = Some {| _finger := 5624; _region_limit := 5632 |}) as Hmoves
    by reflexivity.
  split; [exact Hmoves|]. split; [|reflexivity].
  exact (proj2 (proj2 (proj2 (proj2
           (local_finger_moves_forward _ _ _ Hmoves))))).
Defined.

End G1CMTaskFingerFacts.

(** ** The size of the mark stack against its contents *)

Module G1CMMarkStackContents.
Import G1CMMarkStack.

(** The entries of a chunk that are in use: those before the first
    null entry, which terminates a chunk that is not completely filled. *)
Fixpoint entries_before_null (l : list G1TaskQueueEntry.t) : Z :=
  match l with
  | [] => 0
  | e :: l' =>
      if G1TaskQueueEntry.is_null e then 0 else 1 + entries_before_null l'
  end.

Definition entries_in_use (c : TaskQueueEntryChunk) : Z :=
  entries_before_null (vec_to_list (data c)).

(** The chunks of a list linked through [next], and the entries in use
    on all of them. *)
Fixpoint chunks_linked (c : TaskQueueEntryChunk) : Z :=
  match next c with
  | None => 1
  | Some c' => 1 + chunks_linked c'
  end.

Fixpoint entries_linked (c : TaskQueueEntryChunk) : Z :=
  match next c with
  | None => entries_in_use c
  | Some c' => entries_in_use c + entries_linked c'
  end.

Definition chunks_on_list (l : option TaskQueueEntryChunk) : Z :=
  match l with None => 0 | Some c => chunks_linked c end.

Definition entries_on_list (l : option TaskQueueEntryChunk) : Z :=
  match l with None => 0 | Some c => entries_linked c end.

Lemma entries_before_null_bound (l : list G1TaskQueueEntry.t) :
  0 <= entries_before_null l <= Z.of_nat (length l).
Proof.
  induction l as [|e l IH]; simpl; [lia|].
  destruct (G1TaskQueueEntry.is_null e); lia.
Qed.

Lemma entries_in_use_bound (c : TaskQueueEntryChunk) :
  0 <= entries_in_use c <= EntriesPerChunk.
Proof.
  unfold entries_in_use.
  pose proof (entries_before_null_bound (vec_to_list (data c))) as H.
  pose proof (length_vec_to_list (data c)) as Hlen. rewrite Hlen in H.
  rewrite Z2Nat.id in H by (unfold EntriesPerChunk; lia). exact H.
Qed.

Lemma entries_linked_bound :
  forall c, 0 <= entries_linked c <= chunks_linked c * EntriesPerChunk
            /\ 1 <= chunks_linked c.
Proof.
  fix IH 1. intros [nxt d].
  pose proof (entries_in_use_bound (Chunk nxt d)) as Hc.
  destruct nxt as [c'|]; simpl in *.
  - destruct (IH c') as [Hrec Hone].
    change (entries_in_use (Chunk (Some c') d)) with (entries_in_use (Chunk None d)) in *.
    unfold EntriesPerChunk in *. lia.
  - unfold EntriesPerChunk in *. lia.
Qed.

(** X16: [size()] never undercounts.  When [_chunks_in_chunk_list] is
    the number of chunks on the chunk list and the chunks fit the address
    space, the entries in use on the list are at most [size()], and
    fewer than [size()] by less than a chunk per chunk; an empty stack
    has size 0. *)
Theorem size_bounds_entries (s : G1CMMarkStack.t) :
  _chunks_in_chunk_list s = chunks_on_list (_chunk_list s) ->
  _chunks_in_chunk_list s * (1024 * HeapWordSize) < word_modulus ->
  0 <= entries_on_list (_chunk_list s) <= size s /\
  size s = chunks_on_list (_chunk_list s) * EntriesPerChunk /\
  (is_empty s = true -> size s = 0) /\
  (is_empty s = false -> EntriesPerChunk <= size s).
Proof.
  intros Hcount Hfit.
  assert (0 <= chunks_on_list (_chunk_list s)) as Hnn.
  { destruct (_chunk_list s) as [c|]; simpl; [|lia].
    pose proof (entries_linked_bound c). lia. }
  assert (size s = _chunks_in_chunk_list s * EntriesPerChunk) as Hsize.
  { unfold size. apply wrap_word_small.
    unfold is_word, EntriesPerChunk, HeapWordSize in *. lia. }
  rewrite Hsize, Hcount. unfold is_empty.
  destruct (_chunk_list s) as [c|]; simpl in *.
  - destruct (entries_linked_bound c) as [Hb Hone].
    split; [exact Hb|]. split; [reflexivity|]. split; [discriminate|].
    intros _. unfold EntriesPerChunk in *. lia.
  - split; [lia|]. split; [reflexivity|]. split; [reflexivity | discriminate].
Qed.

(** A stack of two chunks, the upper one holding a single entry. *)
Definition two_chunks : G1CMMarkStack.t :=
  {| _chunk_allocator := G1CMMarkStackFacts.example_allocator;
     _free_list := None;
     _chunk_list :=
       Some (Chunk (Some (Chunk None (vreplicate _ (G1TaskQueueEntry.mk 4104))))
               (vinsert 0%fin (G1TaskQueueEntry.mk 4112)
                  (vreplicate _ G1TaskQueueEntry.empty)));
     _chunks_in_chunk_list := 2 |}.

Lemma size_bounds_entries_witness :
  entries_on_list (_chunk_list two_chunks) = 1024 /\
  0 <= entries_on_list (_chunk_list two_chunks) <= size two_chunks /\
  size two_chunks = 2 * EntriesPerChunk.
Proof.
  split; [vm_compute; reflexivity|].
  destruct (size_bounds_entries two_chunks) as (Hb & Hs & _).
  - reflexivity.
  - vm_compute. reflexivity.
  - split; [exact Hb | exact Hs].
Defined.

End G1CMMarkStackContents.
